(** * dashboard-linter: configuration resolver and result set

    A shallow embedding of [lint/configuration.go] and of the result-set
    code ([Result], [ResultContext], [ResultSet]) of the dashboard linter,
    with the properties its specification states about them.

    Conventions of the embedding:
    - a Go pointer that may be nil is an [option]; a Go interface value
      that may be nil is an [option] of the record of its methods;
    - a Go run-time panic (nil dereference, method call on a nil
      interface) is the result [None] of a function into [option];
    - a Go [map[string]*T] is a [gmap string (option T)]: a key can be
      present with a nil pointer;
    - Go strings are [string]s (sequences of bytes), Go [int]s are [Z]. *)

From Stdlib Require Import ZArith Ascii String List Sorting.Sorted.
From stdpp Require Import base option list gmap strings sorting.

Local Open Scope Z_scope.

(** ** Data model *)

(** [Severity] is an [int] enumeration whose declaration lies outside the
    files modelled here; its five constants are the ones [TtyPrint]
    switches over. Their numeric values are a parameter of the
    development (see [Section Aggregation]). *)
Inductive Severity : Type :=
  | Success
  | Exclude
  | Quiet
  | Warning
  | Error.

#[global] Instance Severity_eq_dec : EqDecision Severity.
Proof. solve_decision. Defined.

Record Result : Type := mkResult {
  Result_Severity : Severity;
  Result_Message : string
}.

(** The [Rule] interface: the two methods the modelled code calls. *)
Record Rule : Type := mkRule {
  Name : string;
  Description : string
}.

Record Template : Type := mkTemplate {
  Template_Name : string;
  Template_Type : string;
  Template_Label : string;
  Template_Datasource : string;
  Template_Multi : bool;
  Template_AllValue : string;
  Template_Query : string
}.

Record Target : Type := mkTarget {
  Target_Idx : Z;
  Target_Expr : string
}.

Record Panel : Type := mkPanel {
  Panel_Title : string;
  Panel_Type : string;
  Panel_Targets : list Target
}.

Record Dashboard : Type := mkDashboard {
  Dashboard_Title : string;
  Dashboard_Templating : list Template;
  Dashboard_Panels : list Panel
}.

(** [ResultContext]: [Rule] is an interface value, [Dashboard], [Panel]
    and [Target] are pointers; each of them can be nil. *)
Record ResultContext : Type := mkResultContext {
  RC_Result : Result;
  RC_Rule : option Rule;
  RC_Dashboard : option Dashboard;
  RC_Panel : option Panel;
  RC_Target : option Target
}.

Record ConfigurationEntry : Type := mkConfigurationEntry {
  CE_Reason : string;
  CE_Dashboard : string;
  CE_Panel : string;
  CE_TargetIdx : string
}.

Record ConfigurationRuleEntries : Type := mkConfigurationRuleEntries {
  CRE_Reason : string;
  CRE_Entries : list ConfigurationEntry
}.

Record ConfigurationFile : Type := mkConfigurationFile {
  CF_Exclusions : gmap string (option ConfigurationRuleEntries);
  CF_Warnings : gmap string (option ConfigurationRuleEntries)
}.

Record ResultSet : Type := mkResultSet {
  RS_results : list ResultContext;
  RS_config : option ConfigurationFile
}.

(** ** strconv.Atoi

    The library function [IsMatch] calls: an optional sign, then one or
    more decimal digits, the value within the range of a 64-bit [int];
    anything else is an error ([None]). *)

Definition digitVal (c : ascii) : option Z :=
  let n := Z.of_N (N_of_ascii c) in
  if (48 <=? n) && (n <=? 57) then Some (n - 48) else None.

Fixpoint parseDigits (s : string) (acc : Z) : option Z :=
  match s with
  | EmptyString => Some acc
  | String c rest =>
      match digitVal c with
      | Some d => parseDigits rest (acc * 10 + d)
      | None => None
      end
  end.

Definition intMin : Z := - 2 ^ 63.
Definition intMax : Z := 2 ^ 63 - 1.

Definition Atoi (s : string) : option Z :=
  match s with
  | EmptyString => None
  | String c rest =>
      let neg := Ascii.eqb c "-"%char in
      let digits := if neg || Ascii.eqb c "+"%char then rest else s in
      match digits with
      | EmptyString => None
      | _ =>
          match parseDigits digits 0 with
          | Some n =>
              let v := if neg then - n else n in
              if (intMin <=? v) && (v <=? intMax) then Some v else None
          | None => None
          end
      end
  end.

(** ** configuration.go *)

Definition AddEntry (cre : ConfigurationRuleEntries) (e : ConfigurationEntry)
  : ConfigurationRuleEntries :=
  mkConfigurationRuleEntries (CRE_Reason cre) (CRE_Entries cre ++ [e]).

(** [IsMatch]: three guarded assignments to [ret], in source order. *)
Definition IsMatch (ce : ConfigurationEntry) (r : ResultContext) : bool :=
  let ret := true in
  let ret :=
    match RC_Dashboard r with
    | Some d => if negb (String.eqb (CE_Dashboard ce) (Dashboard_Title d)) then false else ret
    | None => ret
    end in
  let ret :=
    match RC_Panel r with
    | Some p => if negb (String.eqb (CE_Panel ce) (Panel_Title p)) then false else ret
    | None => ret
    end in
  let ret :=
    match RC_Target r with
    | Some t =>
        if negb (String.eqb (CE_TargetIdx ce) EmptyString) then
          match Atoi (CE_TargetIdx ce) with
          | Some idx => if negb (idx =? Target_Idx t) then false else ret
          | None => ret
          end
        else ret
    | None => ret
    end in
  ret.

(** The body shared by the two blocks of [Apply]: the lookup of the rule
    name, the loop over the entries and the empty-list and nil-pointer
    cases. [fold_left] is the [for ... range] loop. *)
Definition passMatched (m : gmap string (option ConfigurationRuleEntries))
    (name : string) (res : ResultContext) : bool :=
  let matched := false in
  match m !! name with
  | Some (Some entries) =>
      let matched :=
        fold_left (fun matched ce => if IsMatch ce res then true else matched)
                  (CRE_Entries entries) matched in
      if (length (CRE_Entries entries) =? 0)%nat then true else matched
  | Some None => true
  | None => matched
  end.

Definition setResult (res : ResultContext) (r : Result) : ResultContext :=
  mkResultContext r (RC_Rule res) (RC_Dashboard res) (RC_Panel res) (RC_Target res).

(** First block of [Apply]. *)
Definition exclusionPass (cf : ConfigurationFile) (name : string)
    (res : ResultContext) : ResultContext :=
  if passMatched (CF_Exclusions cf) name res then
    setResult res (mkResult Exclude (Result_Message (RC_Result res) +:+ " (Excluded)"))
  else res.

(** Second block of [Apply]. *)
Definition warningPass (cf : ConfigurationFile) (name : string)
    (res : ResultContext) : ResultContext :=
  if passMatched (CF_Warnings cf) name res then
    setResult res (mkResult Warning (Result_Message (RC_Result res)))
  else res.

(** [Apply]: [res.Rule.Name()] panics on a nil [Rule]. *)
Definition Apply (cf : ConfigurationFile) (res : ResultContext) : option ResultContext :=
  match RC_Rule res with
  | None => None
  | Some rule =>
      let res := exclusionPass cf (Name rule) res in
      match RC_Rule res with
      | None => None
      | Some rule => Some (warningPass cf (Name rule) res)
      end
  end.

Definition NewConfigurationFile : ConfigurationFile :=
  mkConfigurationFile ∅ ∅.

(** ** Result set *)

(** A method call through a [*ConfigurationFile] that may be nil. *)
Definition applyPtr (c : option ConfigurationFile) (r : ResultContext)
  : option ResultContext :=
  match c with
  | Some cf => Apply cf r
  | None => None
  end.

(** [Configure]: stores the pointer, then rewrites every stored context
    in place; the first panic aborts the call. *)
Definition Configure (c : option ConfigurationFile) (rs : ResultSet) : option ResultSet :=
  match mapM (applyPtr c) (RS_results rs) with
  | Some results => Some (mkResultSet results c)
  | None => None
  end.

(** [AddResult]: applies the configuration when one is attached. *)
Definition AddResult (r : ResultContext) (rs : ResultSet) : option ResultSet :=
  let r' := match RS_config rs with
            | Some cf => Apply cf r
            | None => Some r
            end in
  match r' with
  | Some r => Some (mkResultSet (RS_results rs ++ [r]) (RS_config rs))
  | None => None
  end.

(** A loop whose body can panic. *)
Fixpoint foldM {A B : Type} (f : A -> B -> option A) (a : A) (l : list B) : option A :=
  match l with
  | [] => Some a
  | x :: l' =>
      match f a x with
      | Some a' => foldM f a' l'
      | None => None
      end
  end.

(** Calling [AddResult] for each context of a sequence, in order. *)
Definition AddResults (l : list ResultContext) (rs : ResultSet) : option ResultSet :=
  foldM (fun rs r => AddResult r rs) rs l.

Definition emptyResultSet : ResultSet := mkResultSet [] None.

(** The two orders of building a configured result set. *)
Definition addThenConfigure (cf : ConfigurationFile) (l : list ResultContext)
  : option ResultSet :=
  match AddResults l emptyResultSet with
  | Some rs => Configure (Some cf) rs
  | None => None
  end.

Definition configureThenAdd (cf : ConfigurationFile) (l : list ResultContext)
  : option ResultSet :=
  match Configure (Some cf) emptyResultSet with
  | Some rs => AddResults l rs
  | None => None
  end.

Section Aggregation.
(** The numeric value of each [Severity] constant. *)
Variable sevVal : Severity -> Z.

Definition sevOf (r : ResultContext) : Severity := Result_Severity (RC_Result r).

(** Body of the loop of [MaximumSeverity]. *)
Definition maxStep (retVal : Severity) (res : ResultContext) : Severity :=
  if sevVal retVal <? sevVal (sevOf res) then sevOf res else retVal.

Definition MaximumSeverity (rs : ResultSet) : Severity :=
  fold_left maxStep (RS_results rs) Success.
End Aggregation.

(** *** sort.SliceStable

    The library sorts blocks of the slice by insertion and merges them;
    a slice shorter than a block is sorted by insertion alone, and the
    result of a stable sort does not depend on the algorithm. The model
    is the library's insertion sort: element [i] moves left while the
    comparison [less(j, j-1)] holds. The sorted prefix is kept reversed,
    so that its last element is the head. [less] can panic. *)
Section SliceStable.
Context {A : Type}.
Variable less : A -> A -> option bool.

Fixpoint insertBack (x : A) (prefix : list A) : option (list A) :=
  match prefix with
  | [] => Some [x]
  | y :: rest =>
      match less x y with
      | Some true =>
          match insertBack x rest with
          | Some rest' => Some (y :: rest')
          | None => None
          end
      | Some false => Some (x :: y :: rest)
      | None => None
      end
  end.

Definition SliceStable (l : list A) : option (list A) :=
  match foldM (fun prefix x => insertBack x prefix) [] l with
  | Some prefix => Some (reverse prefix)
  | None => None
  end.
End SliceStable.

(** The comparison [ByRule] passes to the sort: both [Dashboard]
    pointers are dereferenced. *)
Definition lessByTitle (x y : ResultContext) : option bool :=
  match RC_Dashboard x, RC_Dashboard y with
  | Some dx, Some dy => Some (String.ltb (Dashboard_Title dx) (Dashboard_Title dy))
  | _, _ => None
  end.

(** First loop of [ByRule]: [ret[name] = append(ret[name], res)]. *)
Definition appendByRule (ret : gmap string (list ResultContext)) (res : ResultContext)
  : option (gmap string (list ResultContext)) :=
  match RC_Rule res with
  | Some rule => Some (<[Name rule := default [] (ret !! Name rule) ++ [res]]> ret)
  | None => None
  end.

(** Second loop of [ByRule]: every group is sorted in place. *)
Definition sortGroup (kv : string * list ResultContext)
  : option (string * list ResultContext) :=
  match SliceStable lessByTitle kv.2 with
  | Some g => Some (kv.1, g)
  | None => None
  end.

Definition ByRule (rs : ResultSet) : option (gmap string (list ResultContext)) :=
  match foldM appendByRule ∅ (RS_results rs) with
  | Some ret =>
      match mapM sortGroup (map_to_list ret) with
      | Some groups => Some (list_to_map groups)
      | None => None
      end
  | None => None
  end.

(** *** Vocabulary for the statements about [ByRule] *)

Definition dashTitle (r : ResultContext) : option string :=
  Dashboard_Title <$> RC_Dashboard r.

Definition ruleName (r : ResultContext) : option string :=
  Name <$> RC_Rule r.

(** The contexts a rule produced, in insertion order. *)
Definition group (name : string) (l : list ResultContext) : list ResultContext :=
  filter (fun r => ruleName r = Some name) l.

(** The contexts with a given dashboard title, in order. *)
Definition withTitle (k : option string) (l : list ResultContext) : list ResultContext :=
  filter (fun r => dashTitle r = k) l.

(** Order of two contexts by dashboard title; only contexts that have a
    dashboard are comparable. *)
Definition titleLe (a b : ResultContext) : Prop :=
  match dashTitle a, dashTitle b with
  | Some s, Some t => String.le s t
  | _, _ => False
  end.

(** ** Panel job/instance rule

    The rule is not among the modelled source files; only its test is.
    The query parser it calls is a library outside the repository: the
    rule takes it as a parameter, a function from the query text to the
    selectors of the parsed expression, in traversal order, or to a
    failure. *)

Inductive MatchOp : Type :=
  | MatchEqual
  | MatchRegexp.

Record Matcher : Type := mkMatcher {
  Matcher_Name : string;
  Matcher_Op : MatchOp;
  Matcher_Value : string
}.

(** A selector node, as the rule sees it: its label matchers. *)
Definition Selector : Type := list Matcher.

Definition dq : ascii := "034"%char.

Definition isDigit (c : ascii) : bool :=
  let n := N_of_ascii c in ((48 <=? n) && (n <=? 57))%N.

Definition isIdentStart (c : ascii) : bool :=
  let n := N_of_ascii c in
  (((65 <=? n) && (n <=? 90)) || ((97 <=? n) && (n <=? 122))
   || (n =? 95) || (n =? 58))%N.

Definition isIdentChar (c : ascii) : bool := isIdentStart c || isDigit c.

(** The longest prefix of characters satisfying [p], and the rest. *)
Fixpoint span (p : ascii -> bool) (s : string) : string * string :=
  match s with
  | EmptyString => (EmptyString, EmptyString)
  | String c rest =>
      if p c then let '(a, b) := span p rest in (String c a, b)
      else (EmptyString, s)
  end.

Definition parseIdent (s : string) : option (string * string) :=
  match s with
  | String c _ => if isIdentStart c then Some (span isIdentChar s) else None
  | EmptyString => None
  end.

(** A double-quoted value without escapes. *)
Definition parseQuoted (s : string) : option (string * string) :=
  match s with
  | String c rest =>
      if Ascii.eqb c dq then
        match span (fun c => negb (Ascii.eqb c dq)) rest with
        | (v, String _ rest') => Some (v, rest')
        | (_, EmptyString) => None
        end
      else None
  | EmptyString => None
  end.

Definition parseOp (s : string) : option (MatchOp * string) :=
  match s with
  | String c1 (String c2 rest) =>
      if Ascii.eqb c1 "="%char then
        if Ascii.eqb c2 "~"%char then Some (MatchRegexp, rest)
        else Some (MatchEqual, String c2 rest)
      else None
  | _ => None
  end.

Definition parseMatcher (s : string) : option (Matcher * string) :=
  match parseIdent s with
  | Some (name, s1) =>
      match parseOp s1 with
      | Some (op, s2) =>
          match parseQuoted s2 with
          | Some (v, s3) => Some (mkMatcher name op v, s3)
          | None => None
          end
      | None => None
      end
  | None => None
  end.

(** The matchers after an opening brace, up to the closing one. *)
Fixpoint parseMatchers (fuel : nat) (s : string) : option (list Matcher * string) :=
  match fuel with
  | O => None
  | S fuel' =>
      match parseMatcher s with
      | Some (m, String c rest) =>
          if Ascii.eqb c "}"%char then Some ([m], rest)
          else if Ascii.eqb c ","%char then
            match parseMatchers fuel' rest with
            | Some (ms, rest') => Some (m :: ms, rest')
            | None => None
            end
          else None
      | _ => None
      end
  end.

Definition parseBraces (s : string) : option (list Matcher * string) :=
  match s with
  | String c rest =>
      if Ascii.eqb c "{"%char then
        match rest with
        | String c' rest' =>
            if Ascii.eqb c' "}"%char then Some ([], rest')
            else parseMatchers (String.length rest) rest
        | EmptyString => None
        end
      else Some ([], s)
  | EmptyString => Some ([], s)
  end.

(** An optional range [[5m]] after a selector. *)
Definition parseRange (s : string) : option string :=
  match s with
  | String c rest =>
      if Ascii.eqb c "["%char then
        match span (fun c => isDigit c || isIdentStart c) rest with
        | (String _ _, String c' rest') =>
            if Ascii.eqb c' "]"%char then Some rest' else None
        | _ => None
        end
      else Some s
  | EmptyString => Some s
  end.

(** The arguments of a call, after the opening parenthesis. *)
Fixpoint parseArgs (pe : string -> option (list Selector * string))
    (fuel : nat) (s : string) : option (list Selector * string) :=
  match fuel with
  | O => None
  | S fuel' =>
      match pe s with
      | Some (sels, String c rest) =>
          if Ascii.eqb c ")"%char then Some (sels, rest)
          else if Ascii.eqb c ","%char then
            match parseArgs pe fuel' rest with
            | Some (sels', rest') => Some (sels ++ sels', rest')
            | None => None
            end
          else None
      | _ => None
      end
  end.

(** An expression: a call [name(args)] or a selector
    [name{matchers}[range]]; the selectors are listed in traversal
    order. *)
Fixpoint parseExpr (fuel : nat) (s : string) : option (list Selector * string) :=
  match fuel with
  | O => None
  | S fuel' =>
      match parseIdent s with
      | Some (_, String c rest as s1) =>
          if Ascii.eqb c "("%char then parseArgs (parseExpr fuel') fuel' rest
          else
            match parseBraces s1 with
            | Some (ms, s2) =>
                match parseRange s2 with
                | Some s3 => Some ([ms], s3)
                | None => None
                end
            | None => None
            end
      | Some (_, EmptyString) => Some ([[]], EmptyString)
      | None => None
      end
  end.

(** A parser for a fragment of the query language: calls and selectors
    with exact-match and regex-match matchers, written without spaces.
    It reads the queries of the rule's test, and instantiates the
    parser parameter of the rule where a statement is run on them; it
    is not the linter's parser. *)
Definition parseFragment (q : string) : option (list Selector) :=
  match parseExpr (S (String.length q)) q with
  | Some (sels, EmptyString) => Some sels
  | _ => None
  end.

Definition findMatcher (name : string) (sel : Selector) : option Matcher :=
  List.find (fun m => String.eqb (Matcher_Name m) name) sel.

Definition opSymbol (op : MatchOp) : string :=
  match op with
  | MatchEqual => "="
  | MatchRegexp => "=~"
  end.

(** Modelled from the spec: the three checks of one label ("a matcher
    exists", "it uses the regex-match operator", "its matched value is
    exactly the template reference"); the result is the message of the
    first failing check. *)
Definition checkForMatcher (sel : Selector) (name value : string) : option string :=
  match findMatcher name sel with
  | None => Some (name +:+ " selector not found")
  | Some m =>
      match Matcher_Op m with
      | MatchEqual =>
          Some (name +:+ " selector is " +:+ opSymbol MatchEqual +:+ ", not "
                +:+ opSymbol MatchRegexp)
      | MatchRegexp =>
          if String.eqb (Matcher_Value m) value then None
          else Some (name +:+ " selector is " +:+ Matcher_Value m +:+ ", not " +:+ value)
      end
  end.

Definition checkSelector (sel : Selector) : option string :=
  match checkForMatcher sel "job" "$job" with
  | Some e => Some e
  | None => checkForMatcher sel "instance" "$instance"
  end.

Fixpoint firstError {X : Type} (check : X -> option string) (l : list X) : option string :=
  match l with
  | [] => None
  | x :: l' =>
      match check x with
      | Some e => Some e
      | None => firstError check l'
      end
  end.

Section PanelJobInstanceRule.
(** The query parser of the linter. *)
Variable parsePromQL : string -> option (list Selector).

(** A target whose query does not parse is not applicable. *)
Definition lintTarget (t : Target) : option string :=
  match parsePromQL (Target_Expr t) with
  | None => None
  | Some sels =>
      match firstError checkSelector sels with
      | Some e => Some ("invalid PromQL query '" +:+ Target_Expr t +:+ "': " +:+ e)
      | None => None
      end
  end.

(** Modelled from the spec: the panel job/instance rule's panel
    evaluator (the rule's source file is absent): every target's query
    is parsed, every selector is checked, the first failing check is
    returned with the dashboard and panel prefix. *)
Definition LintPanel (d : Dashboard) (p : Panel) : Result :=
  match firstError lintTarget (Panel_Targets p) with
  | Some e =>
      mkResult Error ("Dashboard '" +:+ Dashboard_Title d +:+ "', panel '"
                      +:+ Panel_Title p +:+ "' " +:+ e)
  | None => mkResult Success "OK"
  end.
End PanelJobInstanceRule.

(** The conditions of the rule, in the words of the specification: the
    selector has a matcher for the label, the matcher uses the
    regex-match operator, and its value is the template reference. *)
Definition matcherOK (name value : string) (sel : Selector) : Prop :=
  exists m, findMatcher name sel = Some m
            /\ Matcher_Op m = MatchRegexp /\ Matcher_Value m = value.

Definition selectorOK (sel : Selector) : Prop :=
  matcherOK "job" "$job" sel /\ matcherOK "instance" "$instance" sel.

(** A target has nothing to report: its query does not parse, or every
    selector of it satisfies the rule. *)
Definition targetPasses (parsePromQL : string -> option (list Selector)) (t : Target)
  : Prop :=
  match parsePromQL (Target_Expr t) with
  | None => True
  | Some sels => Forall selectorOK sels
  end.

Definition q_valid : string :=
  "sum(rate(foo{job=~" +:+ String dq "$job" +:+ String dq ",instance=~"
  +:+ String dq "$instance" +:+ String dq "}[5m]))".
Definition q_unparsable : string := "foo(bar.baz)".
Definition q_no_job : string := "sum(rate(foo[5m]))".
Definition q_no_instance : string :=
  "sum(rate(foo{job=~" +:+ String dq "$job" +:+ String dq "}[5m]))".
Definition q_not_regex : string :=
  "sum(rate(foo{job=" +:+ String dq "$job" +:+ String dq ",instance="
  +:+ String dq "$instance" +:+ String dq "}[5m]))".
Definition q_wrong_variable : string :=
  "sum(rate(foo{job=~" +:+ String dq "$instance" +:+ String dq ",instance=~"
  +:+ String dq "$job" +:+ String dq "}[5m]))".

Definition testDashboard : Dashboard :=
  mkDashboard "dashboard"
    [mkTemplate EmptyString "datasource" EmptyString EmptyString false EmptyString "prometheus"]
    [].
Definition testPanel (q : string) : Panel :=
  mkPanel "panel" "singlestat" [mkTarget 0 q].

(** ** The matching rule as the specification words it

    An entry field is "set" when it is not the empty string; every set
    field requires the context field to be present and equal, and unset
    fields are not checked. The properties compare it with [IsMatch]. *)
Definition fieldSet (s : string) : bool := negb (String.eqb s EmptyString).

Definition IsMatch_spec (ce : ConfigurationEntry) (r : ResultContext) : bool :=
  (if fieldSet (CE_Dashboard ce) then
     match RC_Dashboard r with
     | Some d => String.eqb (CE_Dashboard ce) (Dashboard_Title d)
     | None => false
     end
   else true)
  && (if fieldSet (CE_Panel ce) then
        match RC_Panel r with
        | Some p => String.eqb (CE_Panel ce) (Panel_Title p)
        | None => false
        end
      else true)
  && (if fieldSet (CE_TargetIdx ce) then
        match RC_Target r, Atoi (CE_TargetIdx ce) with
        | Some t, Some idx => idx =? Target_Idx t
        | _, _ => false
        end
      else true).

(** Record updates used in the statements. *)
Definition withTargetIdx (ce : ConfigurationEntry) (idx : string) : ConfigurationEntry :=
  mkConfigurationEntry (CE_Reason ce) (CE_Dashboard ce) (CE_Panel ce) idx.

Definition withTarget (r : ResultContext) (t : option Target) : ResultContext :=
  mkResultContext (RC_Result r) (RC_Rule r) (RC_Dashboard r) (RC_Panel r) t.

Definition emptyEntry : ConfigurationEntry :=
  mkConfigurationEntry EmptyString EmptyString EmptyString EmptyString.

(** ** Sample values

    The contexts and configurations of the test suite, used to run the
    definitions on concrete inputs. *)

Definition ctxDash1 : ResultContext :=
  mkResultContext (mkResult Error "foo") (Some (mkRule "rule1" "Test Rule"))
    (Some (mkDashboard "dash1" [] [])) None None.


Definition testRule (name : string) : Rule := mkRule name "Test Rule".

(** [newResultContext] of the test suite, for a context with a rule and
    a dashboard. *)
Definition ctxOf (rule dashboard : string) (sev : Severity) : ResultContext :=
  mkResultContext (mkResult sev "foo") (Some (testRule rule))
    (Some (mkDashboard dashboard [] [])) None None.

Definition entryDash1 : ConfigurationEntry :=
  mkConfigurationEntry EmptyString "dash1" EmptyString EmptyString.

Definition entriesDash1 : ConfigurationRuleEntries :=
  mkConfigurationRuleEntries EmptyString [entryDash1].

Definition noEntries : ConfigurationRuleEntries :=
  mkConfigurationRuleEntries EmptyString [].

(** "rule1" excluded and downgraded for dashboard "dash1". *)
Definition cfBoth : ConfigurationFile :=
  mkConfigurationFile {[ "rule1"%string := Some entriesDash1 ]}
                      {[ "rule1"%string := Some entriesDash1 ]}.

(** "rule1" excluded as a whole, "rule2" present without an entries
    object. *)
Definition cfRuleWide : ConfigurationFile :=
  mkConfigurationFile {[ "rule1"%string := Some noEntries ]}
                      {[ "rule2"%string := None ]}.

(** The values an [iota] declaration in the order of the specification's
    scale gives the constants. *)
Definition iotaVal (s : Severity) : Z :=
  match s with
  | Success => 0
  | Exclude => 1
  | Quiet => 2
  | Warning => 3
  | Error => 4
  end.

Definition severityResults : list ResultContext :=
  [ mkResultContext (mkResult Success EmptyString) None None None None;
    mkResultContext (mkResult Warning EmptyString) None None None None;
    mkResultContext (mkResult Error EmptyString) None None None None ].

(** A panel with one target, as in the rule's test. *)
Definition panelOf (title type : string) (idx : Z) (q : string) : Panel :=
  mkPanel title type [mkTarget idx q].

Definition failure (d : Dashboard) (panelTitle q e : string) : Result :=
  mkResult Error ("Dashboard '" +:+ Dashboard_Title d +:+ "', panel '" +:+ panelTitle
                  +:+ "' invalid PromQL query '" +:+ q +:+ "': " +:+ e).

(** [newResultContext] for a context without dashboard. *)
Definition ctxNoDash (rule : string) (sev : Severity) : ResultContext :=
  mkResultContext (mkResult sev "foo") (Some (testRule rule)) None None None.

(** Three contexts of two rules, and the same contexts in another
    insertion order. *)
Definition sampleResults : ResultSet :=
  mkResultSet [ctxOf "rule1" "dashB" Error; ctxOf "rule2" "dashC" Success;
               ctxOf "rule1" "dashA" Warning] None.

Definition sampleResultsSwapped : ResultSet :=
  mkResultSet [ctxOf "rule1" "dashA" Warning; ctxOf "rule1" "dashB" Error;
               ctxOf "rule2" "dashC" Success] None.

(** The result set of the "ByRule" test: one context per rule, none
    with a dashboard. *)
Definition singletonGroups : ResultSet :=
  mkResultSet [ctxNoDash "rule1" Success; ctxNoDash "rule2" Success] None.

(** Two contexts of one rule, the second without dashboard. *)
Definition nilDashboardGroup : ResultSet :=
  mkResultSet [ctxOf "rule1" "dash1" Error; ctxNoDash "rule1" Error] None.

(** ** Printing

    Output to the terminal is modelled by the text written. *)

Definition newline : string := String "010"%char EmptyString.

(** [TtyPrint]: the line [fmt.Printf("[%s] %s\n", sym, Message)] writes;
    nothing for [Quiet], where the method returns before printing. *)
Definition TtyPrint (r : ResultContext) : string :=
  let sym :=
    match Result_Severity (RC_Result r) with
    | Success => Some "✔️"
    | Exclude => Some "➖"
    | Warning => Some "⚠️"
    | Error => Some "❌"
    | Quiet => None
    end in
  match sym with
  | Some sym => "[" +:+ sym +:+ "] " +:+ Result_Message (RC_Result r) +:+ newline
  | None => EmptyString
  end.

(** Body of the loop of [ReportByRule]: [res[0]] panics on an empty
    group, [Description()] on a nil [Rule]. *)
Definition reportGroup (res : list ResultContext) : option string :=
  match res with
  | [] => None
  | r0 :: _ =>
      match RC_Rule r0 with
      | Some rule =>
          Some (Description rule +:+ newline +:+ String.concat EmptyString (TtyPrint <$> res))
      | None => None
      end
  end.

(** [ReportByRule]: the groups are visited in the iteration order of the
    map, which the language leaves open; the model visits them in the
    order of [map_to_list]. *)
Definition ReportByRule (rs : ResultSet) : option string :=
  match ByRule rs with
  | Some groups =>
      match mapM reportGroup (map_to_list groups).*2 with
      | Some outs => Some (String.concat EmptyString outs)
      | None => None
      end
  | None => None
  end.

(** ** Helpers of the test suite *)

Definition anySet (dashboard panel targetIdx : string) : bool :=
  negb (String.eqb dashboard EmptyString) || negb (String.eqb panel EmptyString)
  || negb (String.eqb targetIdx EmptyString).

(** The helpers change a configuration in place: they append to the
    entries object a map value points to and store the pointer back.
    For them the configuration is modelled with its memory: the entries
    objects by address, and the two maps from rule names to addresses.
    A map can be nil, a map value can be the nil pointer, and two keys
    can hold the same address. *)
Record ConfigStore : Type := mkConfigStore {
  CS_objects : list ConfigurationRuleEntries;
  CS_Exclusions : option (gmap string (option nat));
  CS_Warnings : option (gmap string (option nat))
}.

(** [m[rule]]: reading a nil map, like reading an absent key, gives the
    nil pointer. *)
Definition readPtr (m : option (gmap string (option nat))) (rule : string) : option nat :=
  match m with
  | Some m =>
      match m !! rule with
      | Some ptr => ptr
      | None => None
      end
  | None => None
  end.

Definition deref (objects : list ConfigurationRuleEntries) (ptr : option nat)
  : option ConfigurationRuleEntries :=
  match ptr with
  | Some a => objects !! a
  | None => None
  end.

Definition derefMap (objects : list ConfigurationRuleEntries)
    (m : option (gmap string (option nat))) : gmap string (option ConfigurationRuleEntries) :=
  match m with
  | Some m => deref objects <$> m
  | None => ∅
  end.

(** The configuration a store holds, as [Apply] reads it. *)
Definition storedConfig (c : ConfigStore) : ConfigurationFile :=
  mkConfigurationFile (derefMap (CS_objects c) (CS_Exclusions c))
                      (derefMap (CS_objects c) (CS_Warnings c)).

(** The store [NewConfigurationFile] makes: two empty maps. *)
Definition newStore : ConfigStore := mkConfigStore [] (Some ∅) (Some ∅).

(** [entries.Entries = append(entries.Entries, ConfigurationEntry{...})] *)
Definition appendEntry (dashboard panel targetIdx : string) (e : ConfigurationRuleEntries)
  : ConfigurationRuleEntries :=
  mkConfigurationRuleEntries (CRE_Reason e)
    (CRE_Entries e ++ [mkConfigurationEntry EmptyString dashboard panel targetIdx]).

(** The body shared by [appendConfigExclude] and [appendConfigWarning]:
    the pointer of the rule is read, a new object is allocated when it
    is nil, the object is extended in place when a field is given, and
    the pointer is written to the map, which panics when the map is
    nil. *)
Definition appendConfig (objects : list ConfigurationRuleEntries)
    (m : option (gmap string (option nat))) (rule dashboard panel targetIdx : string)
  : option (list ConfigurationRuleEntries * gmap string (option nat)) :=
  let '(objects, entries) :=
    match readPtr m rule with
    | Some ptr => (objects, ptr)
    | None => (objects ++ [mkConfigurationRuleEntries EmptyString []], length objects)
    end in
  let objects :=
    if anySet dashboard panel targetIdx
    then alter (appendEntry dashboard panel targetIdx) entries objects
    else objects in
  match m with
  | Some m => Some (objects, <[rule := Some entries]> m)
  | None => None
  end.

(** The helpers take the configuration by pointer: [None] is the nil
    pointer, and the result [None] a panic. *)
Definition appendConfigExclude (rule dashboard panel targetIdx : string)
    (config : option ConfigStore) : option ConfigStore :=
  match config with
  | Some c =>
      match appendConfig (CS_objects c) (CS_Exclusions c) rule dashboard panel targetIdx with
      | Some (objects, m) => Some (mkConfigStore objects (Some m) (CS_Warnings c))
      | None => None
      end
  | None => None
  end.

Definition appendConfigWarning (rule dashboard panel targetIdx : string)
    (config : option ConfigStore) : option ConfigStore :=
  match config with
  | Some c =>
      match appendConfig (CS_objects c) (CS_Warnings c) rule dashboard panel targetIdx with
      | Some (objects, m) => Some (mkConfigStore objects (CS_Exclusions c) (Some m))
      | None => None
      end
  | None => None
  end.

(** Two maps over [n] allocated objects: every pointer is allocated
    and no object is held under two keys. *)
Definition mapsOK (n : nat) (m1 m2 : option (gmap string (option nat))) : Prop :=
  (forall rule ptr, readPtr m1 rule = Some ptr \/ readPtr m2 rule = Some ptr ->
                    (ptr < n)%nat)
  /\ (forall r1 r2 ptr, readPtr m1 r1 = Some ptr -> readPtr m1 r2 = Some ptr -> r1 = r2)
  /\ (forall r1 r2 ptr, readPtr m2 r1 = Some ptr -> readPtr m2 r2 = Some ptr -> r1 = r2)
  /\ (forall r1 r2 ptr, readPtr m1 r1 = Some ptr -> readPtr m2 r2 <> Some ptr).

(** A store as the helpers build it from [NewConfigurationFile]: both
    maps allocated, every pointer an allocated object, and no object
    under two keys. *)
Definition storeOK (c : ConfigStore) : Prop :=
  CS_Exclusions c <> None /\ CS_Warnings c <> None
  /\ mapsOK (length (CS_objects c)) (CS_Exclusions c) (CS_Warnings c).

Definition newResultContext (rule dashboard panel targetIdx : string) (result : Severity)
  : ResultContext :=
  mkResultContext (mkResult result "foo")
    (if negb (String.eqb rule EmptyString) then Some (mkRule rule "Test Rule") else None)
    (if negb (String.eqb dashboard EmptyString)
     then Some (mkDashboard dashboard [] []) else None)
    (if negb (String.eqb panel EmptyString)
     then Some (mkPanel panel EmptyString []) else None)
    (if negb (String.eqb targetIdx EmptyString) then
       match Atoi targetIdx with
       | Some idx => Some (mkTarget idx EmptyString)
       | None => None
       end
     else None).

(** ** Vocabulary for the further properties *)

(** A configuration with every reason string blanked. *)
Definition clearEntryReason (ce : ConfigurationEntry) : ConfigurationEntry :=
  mkConfigurationEntry EmptyString (CE_Dashboard ce) (CE_Panel ce) (CE_TargetIdx ce).

Definition clearEntriesReasons (e : ConfigurationRuleEntries) : ConfigurationRuleEntries :=
  mkConfigurationRuleEntries EmptyString (clearEntryReason <$> CRE_Entries e).

Definition clearPtrReasons (o : option ConfigurationRuleEntries)
  : option ConfigurationRuleEntries :=
  clearEntriesReasons <$> o.

Definition clearReasons (cf : ConfigurationFile) : ConfigurationFile :=
  mkConfigurationFile (clearPtrReasons <$> CF_Exclusions cf)
                      (clearPtrReasons <$> CF_Warnings cf).

(** The exclusion pass matches the context under its own rule name. *)
Definition excludedBy (cf : ConfigurationFile) (r : ResultContext) : bool :=
  match RC_Rule r with
  | Some rule => passMatched (CF_Exclusions cf) (Name rule) r
  | None => false
  end.

Definition msgOf (r : ResultContext) : string := Result_Message (RC_Result r).

(** A target-scoped context of the test suite and an entry for it. *)
Definition ctxTarget0 : ResultContext :=
  newResultContext "rule1" "dash1" "panel1" "0" Error.

Definition entryPanel1 : ConfigurationEntry :=
  mkConfigurationEntry "legacy panel" "dash1" "panel1" EmptyString.

Definition cfPanel1 : ConfigurationFile :=
  mkConfigurationFile
    {[ "rule1"%string := Some (mkConfigurationRuleEntries "tracked upstream" [entryPanel1]) ]}
    ∅.

Definition resultsOf (l : list ResultContext) : ResultSet := mkResultSet l None.

(** [l'] is [l] with every context rewritten by [Apply]. *)
Definition rewritten (cf : ConfigurationFile) (l l' : list ResultContext) : Prop :=
  Forall2 (fun r r' => Apply cf r = Some r') l l'.

(** Two contexts with the same rule and the same dashboard. *)
Definition sameScope (r r' : ResultContext) : Prop :=
  RC_Rule r = RC_Rule r' /\ RC_Dashboard r = RC_Dashboard r'.

(** The context with its scope references replaced. *)
Definition withScope (r : ResultContext) (d : option Dashboard) (p : option Panel)
    (t : option Target) : ResultContext :=
  mkResultContext (RC_Result r) (RC_Rule r) d p t.

(** The warning pass matches the context under its own rule name. *)
Definition warnedBy (cf : ConfigurationFile) (r : ResultContext) : bool :=
  match RC_Rule r with
  | Some rule => passMatched (CF_Warnings cf) (Name rule) r
  | None => false
  end.

Definition entryTarget0 : ConfigurationEntry :=
  mkConfigurationEntry EmptyString "dash1" "panel1" "0".

(** The groups of [sampleResults], and the same result set configured
    to exclude "rule1" on dashboard "dashA", with its groups. *)
Definition sampleGroups : gmap string (list ResultContext) :=
  {[ "rule1"%string := [ctxOf "rule1" "dashA" Warning; ctxOf "rule1" "dashB" Error];
     "rule2"%string := [ctxOf "rule2" "dashC" Success] ]}.

Definition cfDashA : ConfigurationFile :=
  mkConfigurationFile
    {[ "rule1"%string :=
         Some (mkConfigurationRuleEntries EmptyString
                 [mkConfigurationEntry EmptyString "dashA" EmptyString EmptyString]) ]}
    ∅.

Definition excludedDashA : ResultContext :=
  setResult (ctxOf "rule1" "dashA" Warning) (mkResult Exclude "foo (Excluded)").

Definition sampleConfigured : ResultSet :=
  mkResultSet [ctxOf "rule1" "dashB" Error; ctxOf "rule2" "dashC" Success; excludedDashA]
              (Some cfDashA).

Definition sampleConfiguredGroups : gmap string (list ResultContext) :=
  {[ "rule1"%string := [excludedDashA; ctxOf "rule1" "dashB" Error];
     "rule2"%string := [ctxOf "rule2" "dashC" Success] ]}.

(** A panel-scoped context of the test suite. *)
Definition ctxPanel1 : ResultContext :=
  newResultContext "rule1" "dash1" "panel1" EmptyString Error.

(** ** Vocabulary for the statements about the passes of [Apply] *)

(** The configuration with one of its two maps emptied: [Apply] then
    runs one pass only. *)
Definition exclusionsOnly (cf : ConfigurationFile) : ConfigurationFile :=
  mkConfigurationFile (CF_Exclusions cf) ∅.

Definition warningsOnly (cf : ConfigurationFile) : ConfigurationFile :=
  mkConfigurationFile ∅ (CF_Warnings cf).

(** What a matching exclusion pass, and a matching warning pass, make
    of a context. *)
Definition excluded (res : ResultContext) : ResultContext :=
  setResult res (mkResult Exclude (Result_Message (RC_Result res) +:+ " (Excluded)")).

Definition warned (res : ResultContext) : ResultContext :=
  setResult res (mkResult Warning (Result_Message (RC_Result res))).

(** A map of rule entries applies to a context under a rule name, in the
    words of the specification: the name is a key, and its entry list
    is missing, empty, or holds an entry that matches the context. *)
Definition passApplies (m : gmap string (option ConfigurationRuleEntries))
    (name : string) (res : ResultContext) : Prop :=
  match m !! name with
  | None => False
  | Some None => True
  | Some (Some entries) =>
      CRE_Entries entries = []
      \/ exists ce, ce ∈ CRE_Entries entries /\ IsMatch ce res = true
  end.

(** "rule1" downgraded for dashboard "dash1", nothing excluded. *)
Definition cfWarnDash1 : ConfigurationFile :=
  mkConfigurationFile ∅ {[ "rule1"%string := Some entriesDash1 ]}.

(** The matchers of the queries of the rule's test. *)
Definition mJob (op : MatchOp) (value : string) : Matcher := mkMatcher "job" op value.
Definition mInstance (op : MatchOp) (value : string) : Matcher :=
  mkMatcher "instance" op value.

(** "rule1" excluded as a whole. *)
Definition cfRule1Wide : ConfigurationFile :=
  mkConfigurationFile {[ "rule1"%string := Some noEntries ]} ∅.

(** A store in which "rule1" and "rule2" hold the same entries
    object. *)
Definition sharedStore : ConfigStore :=
  mkConfigStore [noEntries]
    (Some {[ "rule1"%string := Some 0%nat; "rule2"%string := Some 0%nat ]}) (Some ∅).

(** The value of an optional store after a helper call. *)
Definition storedConfigOf (c : option ConfigStore) : option ConfigurationFile :=
  storedConfig <$> c.

(** What a pass finds under a rule name whose value is an object. *)
Definition objectMatches (o : option ConfigurationRuleEntries) (res : ResultContext) : bool :=
  match o with
  | Some e =>
      match CRE_Entries e with
      | [] => true
      | l => existsb (fun ce => IsMatch ce res) l
      end
  | None => true
  end.
(** * Properties *)

(** ** Matching *)

Example Atoi_examples :
  Atoi "0" = Some 0 /\ Atoi "-12" = Some (-12) /\ Atoi "+7" = Some 7
  /\ Atoi EmptyString = None /\ Atoi "-" = None /\ Atoi "1x" = None
  /\ Atoi "9223372036854775807" = Some intMax
  /\ Atoi "9223372036854775808" = None.
Proof. repeat split; vm_compute; reflexivity. Qed.

(** The "Excludes Targets" case of the test suite. *)
Example excludes_target_0 :
  let ce := mkConfigurationEntry EmptyString "dash1" "panel1" "0" in
  let ctx idx := mkResultContext (mkResult Error "foo") (Some (testRule "rule1"))
                   (Some (mkDashboard "dash1" [] [])) (Some (mkPanel "panel1" EmptyString []))
                   (Some (mkTarget idx EmptyString)) in
  IsMatch ce (ctx 0) = true /\ IsMatch ce (ctx 1) = false.
Proof. split; reflexivity. Qed.

Lemma IsMatch_true_iff (ce : ConfigurationEntry) (r : ResultContext) :
  IsMatch ce r = true <->
  (forall d, RC_Dashboard r = Some d -> CE_Dashboard ce = Dashboard_Title d)
  /\ (forall p, RC_Panel r = Some p -> CE_Panel ce = Panel_Title p)
  /\ (forall t idx, RC_Target r = Some t -> CE_TargetIdx ce <> EmptyString ->
        Atoi (CE_TargetIdx ce) = Some idx -> idx = Target_Idx t).
Proof.
  unfold IsMatch.
  destruct (RC_Dashboard r) as [d|], (RC_Panel r) as [p|], (RC_Target r) as [t|];
    repeat match goal with
    | |- context [String.eqb ?a ?b] =>
        let E := fresh "E" in
        destruct (String.eqb a b) eqn:E;
        [apply String.eqb_eq in E | apply String.eqb_neq in E]; simpl
    | |- context [Atoi ?s] => destruct (Atoi s) eqn:?; simpl
    | |- context [Z.eqb ?a ?b] => destruct (Z.eqb_spec a b); simpl
    end;
    split;
    try solve [intros _; repeat split; intros; simplify_eq; congruence];
    try solve [intros (Hd & Hp & Ht); try reflexivity; exfalso;
               first [ apply E; apply Hd; reflexivity
                     | apply E0; apply Hp; reflexivity
                     | eauto
                     | match goal with H : _ <> _ |- _ => apply H; eapply Ht; eauto end ]];
    try discriminate.
Qed.

(** [IsMatch] reads the scope references of a context, never its
    [Result]. *)
Lemma IsMatch_setResult (ce : ConfigurationEntry) (res : ResultContext) (r : Result) :
  IsMatch ce (setResult res r) = IsMatch ce res.
Proof. reflexivity. Qed.

(** C1: an entry's unset dashboard and unset panel are not skipped but
    compared, as the empty string, with the title the context carries.
    The entry with no field set rejects a context that carries a
    dashboard, and an entry that names only the dashboard rejects the
    panel-scoped contexts of that dashboard, where the matching rule of
    the specification accepts both. The target index next to them is
    guarded: an entry without target index matches a target-scoped
    context. *)
Theorem C1_IsMatch_compares_unset_titles :
  (IsMatch emptyEntry ctxDash1 = false /\ IsMatch_spec emptyEntry ctxDash1 = true)
  /\ (IsMatch entryDash1 ctxPanel1 = false /\ IsMatch_spec entryDash1 ctxPanel1 = true)
  /\ (IsMatch entryPanel1 ctxTarget0 = true /\ IsMatch_spec entryPanel1 ctxTarget0 = true).
Proof. repeat split; reflexivity. Qed.

(** C9: an entry whose target index is a non-empty string that is not
    an integer is matched against a context carrying a target exactly as
    the same entry with the target index unset, and the outcome does not
    depend on the target. *)
Theorem C9_unparsable_target_index_is_skipped
    (ce : ConfigurationEntry) (r : ResultContext) (t : Target)
    (Hset : CE_TargetIdx ce <> EmptyString)
    (Herr : Atoi (CE_TargetIdx ce) = None)
    (Htarget : RC_Target r = Some t) :
  IsMatch ce r = IsMatch (withTargetIdx ce EmptyString) r
  /\ forall t', IsMatch ce (withTarget r (Some t')) = IsMatch ce r.
Proof.
  unfold IsMatch. simpl. rewrite Htarget, Herr.
  destruct (String.eqb (CE_TargetIdx ce) EmptyString); simpl; split; reflexivity.
Qed.

Lemma C9_unparsable_target_index_is_skipped_witness :
  let ce := mkConfigurationEntry EmptyString "dash1" "panel1" "first" in
  let r := mkResultContext (mkResult Error "foo") (Some (mkRule "rule1" "Test Rule"))
             (Some (mkDashboard "dash1" [] [])) (Some (mkPanel "panel1" EmptyString []))
             (Some (mkTarget 7 EmptyString)) in
  IsMatch ce r = true
  /\ IsMatch ce r = IsMatch (withTargetIdx ce EmptyString) r
  /\ forall t', IsMatch ce (withTarget r (Some t')) = IsMatch ce r.
Proof.
  intros ce r. split; [reflexivity|].
  apply (C9_unparsable_target_index_is_skipped ce r (mkTarget 7 EmptyString)).
  - discriminate.
  - reflexivity.
  - reflexivity.
Defined.

(** ** The two passes of [Apply] *)

Lemma loop_matched (res : ResultContext) (l : list ConfigurationEntry) (b : bool) :
  fold_left (fun matched ce => if IsMatch ce res then true else matched) l b
  = b || existsb (fun ce => IsMatch ce res) l.
Proof.
  revert b. induction l as [|ce l IH]; intros b; simpl.
  - now rewrite orb_false_r.
  - rewrite IH. destruct (IsMatch ce res), b; reflexivity.
Qed.

Lemma passMatched_setResult m name res r :
  passMatched m name (setResult res r) = passMatched m name res.
Proof. reflexivity. Qed.

Lemma passMatched_entries m name res entries :
  m !! name = Some (Some entries) ->
  passMatched m name res = true <->
  CRE_Entries entries = [] \/ exists ce, ce ∈ CRE_Entries entries /\ IsMatch ce res = true.
Proof.
  intros Hm. unfold passMatched. rewrite Hm, loop_matched. simpl.
  destruct (CRE_Entries entries) as [|ce l] eqn:El; simpl.
  - split; auto.
  - change (IsMatch ce res || existsb (fun ce => IsMatch ce res) l)
      with (existsb (fun ce => IsMatch ce res) (ce :: l)).
    rewrite existsb_exists. setoid_rewrite <- list_elem_of_In.
    split; [auto | intros [?|?]; [discriminate | assumption]].
Qed.

(** What [Apply] returns, in terms of the two match flags. *)
Lemma Apply_char (cf : ConfigurationFile) (res : ResultContext) (rule : Rule) :
  RC_Rule res = Some rule ->
  Apply cf res =
  Some (let e := passMatched (CF_Exclusions cf) (Name rule) res in
        let w := passMatched (CF_Warnings cf) (Name rule) res in
        let sev := Result_Severity (RC_Result res) in
        let msg := Result_Message (RC_Result res) in
        setResult res
          (mkResult (if w then Warning else if e then Exclude else sev)
                    (if e then msg +:+ " (Excluded)" else msg))).
Proof.
  intros Hr. unfold Apply, exclusionPass, warningPass. rewrite Hr.
  destruct (passMatched (CF_Exclusions cf) (Name rule) res) eqn:He; simpl; rewrite Hr.
  - rewrite passMatched_setResult.
    destruct (passMatched (CF_Warnings cf) (Name rule) res); reflexivity.
  - destruct (passMatched (CF_Warnings cf) (Name rule) res); simpl.
    + reflexivity.
    + destruct res as [[sev msg] ? ? ? ?]; reflexivity.
Qed.

Lemma Apply_None (cf : ConfigurationFile) (res : ResultContext) :
  Apply cf res = None <-> RC_Rule res = None.
Proof.
  destruct (RC_Rule res) as [rule|] eqn:Hr.
  - rewrite (Apply_char cf res rule Hr). split; discriminate.
  - unfold Apply. rewrite Hr. split; reflexivity.
Qed.


Lemma append_empty_r (s : string) : s +:+ EmptyString = s.
Proof.
  induction s as [|c s IH]; [reflexivity|].
  change (String c (s +:+ EmptyString) = String c s). now rewrite IH.
Qed.

Lemma append_suffix_neq (s t : string) : t <> EmptyString -> s +:+ t <> s.
Proof.
  intros Ht H. rewrite <- (append_empty_r s) in H at 2.
  apply (inj (String.append s)) in H. contradiction.
Qed.

Lemma passMatched_iff (m : gmap string (option ConfigurationRuleEntries))
    (name : string) (res : ResultContext) :
  passMatched m name res = true <-> passApplies m name res.
Proof.
  unfold passApplies. destruct (m !! name) as [[e|]|] eqn:Hm.
  - apply (passMatched_entries _ _ _ _ Hm).
  - unfold passMatched. rewrite Hm. split; auto.
  - unfold passMatched. rewrite Hm. split; [discriminate | contradiction].
Qed.

Lemma passMatched_false_iff (m : gmap string (option ConfigurationRuleEntries))
    (name : string) (res : ResultContext) :
  passMatched m name res = false <-> ~ passApplies m name res.
Proof.
  rewrite <- passMatched_iff. destruct (passMatched m name res); split; congruence.
Qed.

Lemma passMatched_empty (name : string) (res : ResultContext) :
  passMatched ∅ name res = false.
Proof. unfold passMatched. now rewrite lookup_empty. Qed.

(** [Apply] is its exclusion pass followed by its warning pass, each
    of them being [Apply] with the other map emptied. *)
Lemma Apply_two_passes (cf : ConfigurationFile) (res : ResultContext) :
  Apply cf res = Apply (exclusionsOnly cf) res ≫= Apply (warningsOnly cf).
Proof.
  destruct (RC_Rule res) as [rule|] eqn:Hrule.
  - rewrite (Apply_char cf res rule Hrule), (Apply_char (exclusionsOnly cf) res rule Hrule).
    simpl. rewrite passMatched_empty.
    erewrite Apply_char by (simpl; exact Hrule). simpl.
    rewrite passMatched_empty, passMatched_setResult.
    destruct (passMatched (CF_Exclusions cf) (Name rule) res),
             (passMatched (CF_Warnings cf) (Name rule) res); reflexivity.
  - rewrite !(proj2 (Apply_None _ res) Hrule). reflexivity.
Qed.

Lemma Apply_exclusion_alone (cf : ConfigurationFile) (res : ResultContext) (rule : Rule) :
  RC_Rule res = Some rule -> CF_Warnings cf !! Name rule = None ->
  Apply cf res
  = Some (if passMatched (CF_Exclusions cf) (Name rule) res then excluded res else res).
Proof.
  intros Hrule Hw. rewrite (Apply_char cf res rule Hrule).
  assert (passMatched (CF_Warnings cf) (Name rule) res = false) as ->
    by (unfold passMatched; now rewrite Hw).
  destruct (passMatched (CF_Exclusions cf) (Name rule) res); simpl;
    [reflexivity | now destruct res as [[sev msg] ? ? ? ?]].
Qed.

Lemma Apply_warning_alone (cf : ConfigurationFile) (res : ResultContext) (rule : Rule) :
  RC_Rule res = Some rule -> CF_Exclusions cf !! Name rule = None ->
  Apply cf res
  = Some (if passMatched (CF_Warnings cf) (Name rule) res then warned res else res).
Proof.
  intros Hrule He. rewrite (Apply_char cf res rule Hrule).
  assert (passMatched (CF_Exclusions cf) (Name rule) res = false) as ->
    by (unfold passMatched; now rewrite He).
  destruct (passMatched (CF_Warnings cf) (Name rule) res); simpl;
    [reflexivity | now destruct res as [[sev msg] ? ? ? ?]].
Qed.

Lemma no_entry_matches (l : list ConfigurationEntry) (res : ResultContext) :
  (forall ce, ce ∈ l -> IsMatch ce res = false) ->
  ~ exists ce, ce ∈ l /\ IsMatch ce res = true.
Proof. intros Hall (ce & Hin & Hm). rewrite (Hall ce Hin) in Hm. discriminate. Qed.

(** C5: [Apply] looks the rule name of the context up in each map.
    With no key for the rule in the other map, so that one pass is
    seen alone: a name absent from the pass's map leaves the context
    unchanged; a name present with no entries object or an empty entry
    list rewrites every context of the rule; a name present with a
    non-empty list rewrites the context when some entry matches it and
    leaves it unchanged when none does. In general [Apply] is the
    exclusion pass followed by the warning pass, each looked up on its
    own. *)
Theorem C5_Apply_pass_lookup_cases
    (cf : ConfigurationFile) (res : ResultContext) (rule : Rule)
    (Hrule : RC_Rule res = Some rule) :
  (CF_Warnings cf !! Name rule = None ->
   (CF_Exclusions cf !! Name rule = None -> Apply cf res = Some res)
   /\ (CF_Exclusions cf !! Name rule = Some None -> Apply cf res = Some (excluded res))
   /\ (forall e, CF_Exclusions cf !! Name rule = Some (Some e) ->
                 CRE_Entries e = [] -> Apply cf res = Some (excluded res))
   /\ (forall e, CF_Exclusions cf !! Name rule = Some (Some e) ->
                 CRE_Entries e <> [] ->
                 ((exists ce, ce ∈ CRE_Entries e /\ IsMatch ce res = true) ->
                  Apply cf res = Some (excluded res))
                 /\ ((forall ce, ce ∈ CRE_Entries e -> IsMatch ce res = false) ->
                     Apply cf res = Some res)))
  /\ (CF_Exclusions cf !! Name rule = None ->
      (CF_Warnings cf !! Name rule = None -> Apply cf res = Some res)
      /\ (CF_Warnings cf !! Name rule = Some None -> Apply cf res = Some (warned res))
      /\ (forall e, CF_Warnings cf !! Name rule = Some (Some e) ->
                    CRE_Entries e = [] -> Apply cf res = Some (warned res))
      /\ (forall e, CF_Warnings cf !! Name rule = Some (Some e) ->
                    CRE_Entries e <> [] ->
                    ((exists ce, ce ∈ CRE_Entries e /\ IsMatch ce res = true) ->
                     Apply cf res = Some (warned res))
                    /\ ((forall ce, ce ∈ CRE_Entries e -> IsMatch ce res = false) ->
                        Apply cf res = Some res)))
  /\ Apply cf res = Apply (exclusionsOnly cf) res ≫= Apply (warningsOnly cf)
  /\ excluded res <> res.
Proof.
  assert (Hyes : forall m, passApplies m (Name rule) res ->
                           passMatched m (Name rule) res = true)
    by (intros m; apply passMatched_iff).
  assert (Hno : forall m, ~ passApplies m (Name rule) res ->
                          passMatched m (Name rule) res = false)
    by (intros m; apply passMatched_false_iff).
  split; [|split; [|split]].
  - intros Hw. rewrite (Apply_exclusion_alone cf res rule Hrule Hw).
    split; [|split; [|split]].
    + intros He. rewrite Hno; [reflexivity|]. unfold passApplies. now rewrite He.
    + intros He. rewrite Hyes; [reflexivity|]. unfold passApplies. now rewrite He.
    + intros e He Hnil. rewrite Hyes; [reflexivity|]. unfold passApplies. rewrite He. now left.
    + intros e He Hne. split.
      * intros Hex. rewrite Hyes; [reflexivity|]. unfold passApplies. rewrite He. now right.
      * intros Hall. rewrite Hno; [reflexivity|]. unfold passApplies. rewrite He.
        intros [Hnil|Hex]; [contradiction | now apply (no_entry_matches _ _ Hall)].
  - intros He. rewrite (Apply_warning_alone cf res rule Hrule He).
    split; [|split; [|split]].
    + intros Hw. rewrite Hno; [reflexivity|]. unfold passApplies. now rewrite Hw.
    + intros Hw. rewrite Hyes; [reflexivity|]. unfold passApplies. now rewrite Hw.
    + intros e Hw Hnil. rewrite Hyes; [reflexivity|]. unfold passApplies. rewrite Hw. now left.
    + intros e Hw Hne. split.
      * intros Hex. rewrite Hyes; [reflexivity|]. unfold passApplies. rewrite Hw. now right.
      * intros Hall. rewrite Hno; [reflexivity|]. unfold passApplies. rewrite Hw.
        intros [Hnil|Hex]; [contradiction | now apply (no_entry_matches _ _ Hall)].
  - apply Apply_two_passes.
  - intros E. apply (f_equal (fun r => Result_Message (RC_Result r))) in E. simpl in E.
    revert E. apply append_suffix_neq. discriminate.
Qed.

(** C6: when the exclusion pass of [Apply] matches, the context it
    returns carries the original message followed by " (Excluded)", and
    the severity [Exclude] unless the warning pass matches too; when the
    warning pass matches, the severity is [Warning] and the message is
    the one the exclusion pass left, which the warning pass does not
    touch: the message depends on the exclusion pass alone. A context
    neither pass matches keeps severity and message. *)
Theorem C6_Apply_pass_effects
    (cf : ConfigurationFile) (res : ResultContext) (rule : Rule)
    (Hrule : RC_Rule res = Some rule) :
  exists res',
    Apply cf res = Some res'
    /\ (passApplies (CF_Exclusions cf) (Name rule) res ->
        Result_Message (RC_Result res')
        = Result_Message (RC_Result res) +:+ " (Excluded)"
        /\ (~ passApplies (CF_Warnings cf) (Name rule) res ->
            Result_Severity (RC_Result res') = Exclude))
    /\ (~ passApplies (CF_Exclusions cf) (Name rule) res ->
        Result_Message (RC_Result res') = Result_Message (RC_Result res)
        /\ (~ passApplies (CF_Warnings cf) (Name rule) res ->
            Result_Severity (RC_Result res') = Result_Severity (RC_Result res)))
    /\ (passApplies (CF_Warnings cf) (Name rule) res ->
        Result_Severity (RC_Result res') = Warning)
    /\ (passApplies (CF_Exclusions cf) (Name rule) res ->
        Apply (exclusionsOnly cf) res = Some (excluded res))
    /\ (passApplies (CF_Warnings cf) (Name rule) res ->
        Apply (warningsOnly cf) res = Some (warned res)).
Proof.
  eexists. split; [apply (Apply_char cf res rule Hrule)|]. simpl.
  split; [|split; [|split; [|split]]].
  - intros He%passMatched_iff. rewrite He. split; [reflexivity|].
    intros Hw%passMatched_false_iff. now rewrite Hw.
  - intros He%passMatched_false_iff. rewrite He. split; [reflexivity|].
    intros Hw%passMatched_false_iff. now rewrite Hw.
  - intros Hw%passMatched_iff. now rewrite Hw.
  - intros He%passMatched_iff.
    rewrite (Apply_exclusion_alone (exclusionsOnly cf) res rule Hrule (lookup_empty _)).
    simpl. now rewrite He.
  - intros Hw%passMatched_iff.
    rewrite (Apply_warning_alone (warningsOnly cf) res rule Hrule (lookup_empty _)).
    simpl. now rewrite Hw.
Qed.


Lemma C5_Apply_pass_lookup_cases_witness :
  Apply cfRuleWide (ctxOf "rule3" "dash1" Error) = Some (ctxOf "rule3" "dash1" Error)
  /\ Apply cfRuleWide ctxDash1 = Some (excluded ctxDash1)
  /\ Apply (exclusionsOnly cfBoth) ctxDash1 = Some (excluded ctxDash1)
  /\ Apply (exclusionsOnly cfBoth) (ctxOf "rule1" "dash2" Error)
     = Some (ctxOf "rule1" "dash2" Error)
  /\ Apply cfRuleWide (ctxOf "rule2" "dash1" Error) = Some (warned (ctxOf "rule2" "dash1" Error))
  /\ Apply cfWarnDash1 ctxDash1 = Some (warned ctxDash1).
Proof.
  split; [|split; [|split; [|split; [|split]]]].
  - destruct (C5_Apply_pass_lookup_cases cfRuleWide (ctxOf "rule3" "dash1" Error)
                (testRule "rule3") eq_refl) as ((H & _) & _); [vm_compute; reflexivity|].
    apply H. vm_compute. reflexivity.
  - destruct (C5_Apply_pass_lookup_cases cfRuleWide ctxDash1 (testRule "rule1") eq_refl)
      as ((_ & _ & H & _) & _); [vm_compute; reflexivity|].
    apply (H noEntries); [vm_compute; reflexivity | reflexivity].
  - destruct (C5_Apply_pass_lookup_cases (exclusionsOnly cfBoth) ctxDash1
                (testRule "rule1") eq_refl) as ((_ & _ & _ & H) & _); [vm_compute; reflexivity|].
    apply (H entriesDash1); [vm_compute; reflexivity | discriminate |].
    exists entryDash1. split; [apply list_elem_of_here | reflexivity].
  - destruct (C5_Apply_pass_lookup_cases (exclusionsOnly cfBoth) (ctxOf "rule1" "dash2" Error)
                (testRule "rule1") eq_refl) as ((_ & _ & _ & H) & _); [vm_compute; reflexivity|].
    apply (H entriesDash1); [vm_compute; reflexivity | discriminate |].
    intros ce Hce. apply list_elem_of_singleton in Hce as ->. reflexivity.
  - destruct (C5_Apply_pass_lookup_cases cfRuleWide (ctxOf "rule2" "dash1" Error)
                (testRule "rule2") eq_refl) as (_ & (_ & H & _) & _); [vm_compute; reflexivity|].
    apply H. vm_compute. reflexivity.
  - destruct (C5_Apply_pass_lookup_cases cfWarnDash1 ctxDash1 (testRule "rule1") eq_refl)
      as (_ & (_ & _ & _ & H) & _); [vm_compute; reflexivity|].
    apply (H entriesDash1); [vm_compute; reflexivity | discriminate |].
    exists entryDash1. split; [apply list_elem_of_here | reflexivity].
Defined.

Lemma C6_Apply_pass_effects_witness :
  (exists res',
      Apply cfBoth ctxDash1 = Some res'
      /\ Result_Message (RC_Result res') = "foo (Excluded)"%string
      /\ Result_Severity (RC_Result res') = Warning)
  /\ (exists res',
        Apply cfRuleWide ctxDash1 = Some res'
        /\ Result_Message (RC_Result res') = "foo (Excluded)"%string
        /\ Result_Severity (RC_Result res') = Exclude).
Proof.
  split.
  - destruct (C6_Apply_pass_effects cfBoth ctxDash1 (testRule "rule1") eq_refl)
      as (res' & Happ & Hex & _ & Hw & _).
    exists res'. split; [exact Happ|]. split.
    + apply Hex. apply passMatched_iff. vm_compute. reflexivity.
    + apply Hw. apply passMatched_iff. vm_compute. reflexivity.
  - destruct (C6_Apply_pass_effects cfRuleWide ctxDash1 (testRule "rule1") eq_refl)
      as (res' & Happ & Hex & _).
    assert (He : passApplies (CF_Exclusions cfRuleWide) "rule1" ctxDash1)
      by (apply passMatched_iff; vm_compute; reflexivity).
    destruct (Hex He) as [Hmsg Hsev].
    exists res'. split; [exact Happ|]. split; [exact Hmsg|].
    apply Hsev. apply passMatched_false_iff. vm_compute. reflexivity.
Defined.

(** ** Configuration and insertion order *)

Lemma AddResults_unconfigured (l acc : list ResultContext) :
  AddResults l (mkResultSet acc None) = Some (mkResultSet (acc ++ l) None).
Proof.
  revert acc. induction l as [|r l IH]; intros acc; simpl.
  - now rewrite app_nil_r.
  - unfold AddResults in *. simpl. rewrite IH. now rewrite <- app_assoc.
Qed.

Lemma AddResults_configured (cf : ConfigurationFile) (l acc : list ResultContext) :
  AddResults l (mkResultSet acc (Some cf))
  = match mapM (Apply cf) l with
    | Some l' => Some (mkResultSet (acc ++ l') (Some cf))
    | None => None
    end.
Proof.
  revert acc. induction l as [|r l IH]; intros acc; simpl.
  - now rewrite app_nil_r.
  - unfold AddResults in *. simpl. unfold AddResult at 1. simpl.
    destruct (Apply cf r) as [r'|]; simpl; [|reflexivity].
    rewrite IH. destruct (mapM (Apply cf) l); simpl; [|reflexivity].
    now rewrite <- app_assoc.
Qed.

Lemma mapM_Apply_total (cf : ConfigurationFile) (l : list ResultContext) :
  Forall (fun r => RC_Rule r <> None) l -> is_Some (mapM (Apply cf) l).
Proof.
  intros H. apply mapM_is_Some. eapply Forall_impl; [exact H|].
  intros r Hr. simpl. destruct (Apply cf r) eqn:E; [eauto|].
  apply Apply_None in E. contradiction.
Qed.

(** C3: for every configuration and every sequence of contexts, adding
    the contexts and then configuring gives the same result set (hence
    the same severities and messages) as configuring and then adding,
    namely the contexts rewritten by [Apply], in order; both orders
    produce a result set when every context has a rule. *)
Theorem C3_configure_commutes_with_insertion
    (cf : ConfigurationFile) (l : list ResultContext) :
  addThenConfigure cf l = configureThenAdd cf l
  /\ addThenConfigure cf l
     = match mapM (Apply cf) l with
       | Some l' => Some (mkResultSet l' (Some cf))
       | None => None
       end
  /\ (Forall (fun r => RC_Rule r <> None) l -> is_Some (addThenConfigure cf l)).
Proof.
  assert (H1 : addThenConfigure cf l
               = match mapM (Apply cf) l with
                 | Some l' => Some (mkResultSet l' (Some cf))
                 | None => None
                 end).
  { unfold addThenConfigure, emptyResultSet. rewrite AddResults_unconfigured. reflexivity. }
  split; [|split; [exact H1|]].
  - rewrite H1. unfold configureThenAdd, emptyResultSet, Configure. simpl.
    now rewrite AddResults_configured.
  - intros Hall. rewrite H1. destruct (mapM_Apply_total cf l Hall) as [l' ->]. eauto.
Qed.

Lemma C3_configure_commutes_with_insertion_witness :
  is_Some (addThenConfigure cfBoth [ctxDash1; ctxOf "rule1" "dash2" Error]).
Proof.
  apply (C3_configure_commutes_with_insertion cfBoth [ctxDash1; ctxOf "rule1" "dash2" Error]).
  repeat constructor; discriminate.
Defined.

(** ** Maximum severity *)

Section MaximumSeverityProps.
Variable sevVal : Severity -> Z.

(** The fixed order of the scale, and the passing floor. *)
Hypothesis sev_order :
  sevVal Success < sevVal Exclude /\ sevVal Exclude < sevVal Warning
  /\ sevVal Warning < sevVal Error.
Hypothesis sev_floor : sevVal Success <= sevVal Quiet.

Lemma Success_least (s : Severity) : sevVal Success <= sevVal s.
Proof using sev_order sev_floor. destruct s; lia. Qed.

Lemma max_loop_bounds (l : list ResultContext) (a : Severity) :
  sevVal a <= sevVal (fold_left (maxStep sevVal) l a)
  /\ forall r, r ∈ l -> sevVal (sevOf r) <= sevVal (fold_left (maxStep sevVal) l a).
Proof.
  revert a. induction l as [|x l IH]; intros a; simpl.
  - split; [lia | intros r Hr; inversion Hr].
  - destruct (IH (maxStep sevVal a x)) as [Ha Hl].
    assert (Hs : sevVal a <= sevVal (maxStep sevVal a x)
                 /\ sevVal (sevOf x) <= sevVal (maxStep sevVal a x)).
    { unfold maxStep. destruct (Z.ltb_spec (sevVal a) (sevVal (sevOf x))); lia. }
    split; [lia|].
    intros r Hr. apply elem_of_cons in Hr as [->|Hr]; [lia | auto].
Qed.

Lemma max_loop_attained (l : list ResultContext) (a : Severity) :
  fold_left (maxStep sevVal) l a = a \/ exists r, r ∈ l /\ sevOf r = fold_left (maxStep sevVal) l a.
Proof.
  revert a. induction l as [|x l IH]; intros a; simpl; [now left|].
  destruct (IH (maxStep sevVal a x)) as [E|(r & Hr & E)].
  - rewrite E. unfold maxStep.
    destruct (sevVal a <? sevVal (sevOf x)); [right | now left].
    exists x. split; [apply list_elem_of_here | reflexivity].
  - right. exists r. split; [now apply list_elem_of_further | exact E].
Qed.

(** C4: the maximum severity of a result set without results is
    [Success]; for a non-empty result set it is the value of one of
    its results and no result has a greater one, under the order
    passing < excluded < warning < failing of the scale. *)
Theorem C4_MaximumSeverity_is_greatest :
  (forall c, MaximumSeverity sevVal (mkResultSet [] c) = Success)
  /\ forall rs,
      RS_results rs <> [] ->
      (exists r, r ∈ RS_results rs
                 /\ sevVal (sevOf r) = sevVal (MaximumSeverity sevVal rs))
      /\ (forall r, r ∈ RS_results rs ->
                    sevVal (sevOf r) <= sevVal (MaximumSeverity sevVal rs)).
Proof using sev_order sev_floor.
  split; [reflexivity|].
  intros rs Hne.
  unfold MaximumSeverity.
  destruct (RS_results rs) as [|x l]; [contradiction|].
  destruct (max_loop_bounds (x :: l) Success) as [_ Hub].
  split; [|exact Hub].
  destruct (max_loop_attained (x :: l) Success) as [E|(r & Hr & E)].
  - exists x. split; [apply list_elem_of_here|].
    specialize (Hub x (list_elem_of_here x l)). rewrite E in *.
    pose proof (Success_least (sevOf x)). lia.
  - exists r. split; [exact Hr | now rewrite E].
Qed.
End MaximumSeverityProps.

Lemma C4_MaximumSeverity_is_greatest_witness :
  MaximumSeverity iotaVal (mkResultSet [] None) = Success
  /\ (exists r, r ∈ severityResults
                /\ iotaVal (sevOf r)
                   = iotaVal (MaximumSeverity iotaVal (mkResultSet severityResults None)))
  /\ MaximumSeverity iotaVal (mkResultSet severityResults None) = Error.
Proof.
  assert (Ho : iotaVal Success < iotaVal Exclude /\ iotaVal Exclude < iotaVal Warning
               /\ iotaVal Warning < iotaVal Error) by (simpl; lia).
  assert (Hf : iotaVal Success <= iotaVal Quiet) by (simpl; lia).
  destruct (C4_MaximumSeverity_is_greatest iotaVal Ho Hf) as [Hempty Hmax].
  split; [apply Hempty|].
  split; [|reflexivity].
  apply (Hmax (mkResultSet severityResults None)). discriminate.
Defined.

(** ** Panel job/instance rule *)

Lemma checkForMatcher_None (sel : Selector) (name value : string) :
  checkForMatcher sel name value = None <-> matcherOK name value sel.
Proof.
  unfold checkForMatcher, matcherOK. destruct (findMatcher name sel) as [m|].
  - destruct (Matcher_Op m) eqn:Hop.
    + split; [discriminate | intros (m' & [= <-] & Hop' & _); congruence].
    + destruct (String.eqb_spec (Matcher_Value m) value) as [Hv|Hv].
      * split; [eauto | reflexivity].
      * split; [discriminate | intros (m' & [= <-] & _ & Hv'); contradiction].
  - split; [discriminate | intros (m' & Hm & _); discriminate].
Qed.

Lemma checkSelector_None (sel : Selector) : checkSelector sel = None <-> selectorOK sel.
Proof.
  unfold checkSelector, selectorOK. rewrite <- !checkForMatcher_None.
  destruct (checkForMatcher sel "job" "$job"); split.
  - discriminate.
  - intros [? _]. discriminate.
  - auto.
  - intros [_ H]. exact H.
Qed.

Lemma firstError_first {X : Type} (check : X -> option string)
    (pre post : list X) (x : X) (e : string) :
  Forall (fun y => check y = None) pre -> check x = Some e ->
  firstError check (pre ++ x :: post) = Some e.
Proof.
  intros Hpre Hx. induction Hpre as [|y pre Hy _ IH]; simpl.
  - now rewrite Hx.
  - now rewrite Hy.
Qed.

Lemma firstError_None {X : Type} (check : X -> option string) (l : list X) :
  firstError check l = None <-> Forall (fun y => check y = None) l.
Proof.
  induction l as [|x l IH]; simpl; [split; [constructor | reflexivity]|].
  rewrite Forall_cons. destruct (check x); [|rewrite IH].
  - split; [discriminate | intros [? _]; discriminate].
  - split; auto. intros [_ H]. exact H.
Qed.

Section PanelJobInstanceProps.
Variable parsePromQL : string -> option (list Selector).

Lemma lintTarget_None (t : Target) :
  lintTarget parsePromQL t = None <-> targetPasses parsePromQL t.
Proof.
  unfold lintTarget, targetPasses. destruct (parsePromQL (Target_Expr t)) as [sels|].
  - rewrite <- (Forall_iff (fun sel => checkSelector sel = None))
      by (intros sel; apply checkSelector_None).
    rewrite <- firstError_None. destruct (firstError checkSelector sels); split; congruence.
  - split; auto.
Qed.

Lemma LintPanel_pass (d : Dashboard) (p : Panel) :
  Forall (targetPasses parsePromQL) (Panel_Targets p) ->
  LintPanel parsePromQL d p = mkResult Success "OK".
Proof.
  intros Hall. unfold LintPanel.
  assert (firstError (lintTarget parsePromQL) (Panel_Targets p) = None) as ->; [|reflexivity].
  apply firstError_None. eapply Forall_impl; [exact Hall|].
  intros t. apply lintTarget_None.
Qed.

(** The first failing check of the first failing selector of the first
    failing target is reported. *)
Lemma LintPanel_fail (d : Dashboard) (p : Panel) (tpre tpost : list Target) (t : Target)
    (pre post : list Selector) (sel : Selector) (e : string) :
  Panel_Targets p = tpre ++ t :: tpost ->
  Forall (targetPasses parsePromQL) tpre ->
  parsePromQL (Target_Expr t) = Some (pre ++ sel :: post) ->
  Forall selectorOK pre ->
  checkSelector sel = Some e ->
  LintPanel parsePromQL d p = failure d (Panel_Title p) (Target_Expr t) e.
Proof.
  intros Hp Htpre Hparse Hpre He. unfold LintPanel. rewrite Hp.
  rewrite (firstError_first _ tpre tpost t
             ("invalid PromQL query '" +:+ Target_Expr t +:+ "': " +:+ e)).
  - reflexivity.
  - eapply Forall_impl; [exact Htpre|]. intros t'. apply lintTarget_None.
  - unfold lintTarget. rewrite Hparse.
    rewrite (firstError_first _ pre post sel e); [reflexivity | | exact He].
    eapply Forall_impl; [exact Hpre|]. intros s. apply checkSelector_None.
Qed.
End PanelJobInstanceProps.

Lemma checkSelector_job (sel : Selector) (e : string) :
  checkForMatcher sel "job" "$job" = Some e -> checkSelector sel = Some e.
Proof. unfold checkSelector. now intros ->. Qed.

Lemma checkSelector_instance (sel : Selector) (e : string) :
  matcherOK "job" "$job" sel ->
  checkForMatcher sel "instance" "$instance" = Some e -> checkSelector sel = Some e.
Proof.
  intros Hjob%checkForMatcher_None He. unfold checkSelector. now rewrite Hjob.
Qed.



(** ** Stable sort of a rule group *)

Example ByRule_keeps_ties :
  ByRule (mkResultSet [ctxOf "rule1" "dashB" Error; ctxOf "rule1" "dashA" Warning;
                       ctxOf "rule1" "dashB" Success; ctxOf "rule1" "dashA" Error] None)
  = Some {[ "rule1"%string :=
              [ctxOf "rule1" "dashA" Warning; ctxOf "rule1" "dashA" Error;
               ctxOf "rule1" "dashB" Error; ctxOf "rule1" "dashB" Success] ]}.
Proof. vm_compute. reflexivity. Qed.

Lemma ltb_false_le (s t : string) : String.ltb s t = false -> String.le t s.
Proof.
  unfold String.le, String.leb, String.ltb. rewrite (String.compare_antisym s t).
  destruct (String.compare t s); simpl; intros H; try discriminate; exact I.
Qed.

Lemma ltb_true_le (s t : string) : String.ltb s t = true -> String.le s t.
Proof.
  unfold String.le, String.leb, String.ltb.
  destruct (String.compare s t); simpl; intros H; try discriminate; exact I.
Qed.

Lemma ltb_irrefl (s : string) : String.ltb s s = false.
Proof.
  unfold String.ltb. pose proof (String.compare_antisym s s) as H.
  destruct (String.compare s s); simpl in H; congruence.
Qed.

Lemma lessByTitle_Some (x y : ResultContext) (b : bool) :
  lessByTitle x y = Some b <->
  exists s t, dashTitle x = Some s /\ dashTitle y = Some t /\ b = String.ltb s t.
Proof.
  unfold lessByTitle, dashTitle.
  destruct (RC_Dashboard x) as [dx|], (RC_Dashboard y) as [dy|]; simpl; split;
    try discriminate; try (intros (s & t & ? & ? & ?); discriminate).
  - intros [= <-]. eauto.
  - intros (s & t & [= <-] & [= <-] & ->). reflexivity.
Qed.

Lemma lessByTitle_None (x y : ResultContext) :
  lessByTitle x y = None <-> RC_Dashboard x = None \/ RC_Dashboard y = None.
Proof.
  unfold lessByTitle.
  destruct (RC_Dashboard x), (RC_Dashboard y); split; try discriminate; auto;
    intros [?|?]; discriminate.
Qed.

Lemma less_true_titleLe (x y : ResultContext) :
  lessByTitle x y = Some true -> titleLe x y /\ dashTitle x <> dashTitle y.
Proof.
  intros (s & t & Hs & Ht & Hb)%lessByTitle_Some. unfold titleLe. rewrite Hs, Ht.
  split; [now apply ltb_true_le|].
  intros [= ->]. rewrite ltb_irrefl in Hb. discriminate.
Qed.

Lemma less_false_titleLe (x y : ResultContext) :
  lessByTitle x y = Some false -> titleLe y x.
Proof.
  intros (s & t & Hs & Ht & Hb)%lessByTitle_Some. unfold titleLe. rewrite Hs, Ht.
  now apply ltb_false_le.
Qed.

Lemma withTitle_cons (k : option string) (x : ResultContext) (l : list ResultContext) :
  withTitle k (x :: l)
  = (if decide (dashTitle x = k) then [x] else []) ++ withTitle k l.
Proof. unfold withTitle. rewrite filter_cons. now destruct (decide (dashTitle x = k)). Qed.

(** One insertion: the new element joins the prefix, passes only
    elements with a strictly greater title, and keeps the prefix
    sorted. *)
Lemma insertBack_spec (x : ResultContext) (prefix p' : list ResultContext) :
  insertBack lessByTitle x prefix = Some p' ->
  p' ≡ₚ x :: prefix
  /\ (forall k, withTitle k p' = withTitle k (x :: prefix))
  /\ (forall y, HdRel (flip titleLe) y prefix -> titleLe x y -> HdRel (flip titleLe) y p')
  /\ (Sorted (flip titleLe) prefix -> Sorted (flip titleLe) p').
Proof.
  revert p'. induction prefix as [|y rest IH]; intros p'; simpl.
  - intros [= <-]. repeat split; auto.
  - destruct (lessByTitle x y) as [[|]|] eqn:Hless; [| |discriminate].
    + destruct (insertBack lessByTitle x rest) as [rest'|] eqn:Hins; [|discriminate].
      intros [= <-]. destruct (IH rest' eq_refl) as (Hperm & Hstab & Hhd & Hsorted).
      apply less_true_titleLe in Hless as [Hle Hne].
      split; [|split; [|split]].
      * rewrite Hperm. apply perm_swap.
      * intros k. rewrite !withTitle_cons, Hstab, !withTitle_cons.
        destruct (decide (dashTitle y = k)), (decide (dashTitle x = k)); simpl;
          try reflexivity. congruence.
      * intros z Hz _. inversion Hz; subst. now constructor.
      * intros Hs. inversion Hs; subst. constructor; auto.
    + intros [= <-]. apply less_false_titleLe in Hless.
      split; [reflexivity|]. split; [reflexivity|]. split.
      * intros z _ Hxz. now constructor.
      * intros Hs. constructor; [exact Hs | now constructor].
Qed.

Lemma sort_loop_spec (l acc p : list ResultContext) :
  foldM (fun prefix x => insertBack lessByTitle x prefix) acc l = Some p ->
  p ≡ₚ l ++ acc
  /\ (forall k, withTitle k p = reverse (withTitle k l) ++ withTitle k acc)
  /\ (Sorted (flip titleLe) acc -> Sorted (flip titleLe) p).
Proof.
  revert acc. induction l as [|x l IH]; intros acc; simpl.
  - intros [= <-]. auto.
  - destruct (insertBack lessByTitle x acc) as [acc'|] eqn:Hins; [|discriminate].
    intros Hp. destruct (IH _ Hp) as (Hperm & Hstab & Hsorted).
    destruct (insertBack_spec _ _ _ Hins) as (Hperm' & Hstab' & _ & Hsorted').
    split; [|split].
    + rewrite Hperm, Hperm'. now rewrite Permutation_middle.
    + intros k. rewrite Hstab, Hstab', !withTitle_cons.
      destruct (decide (dashTitle x = k)); simpl; [|reflexivity].
      now rewrite reverse_cons, <- app_assoc.
    + auto.
Qed.

(** A successful sort returns a permutation of the group, ordered by
    title, in which contexts of equal title keep their order. *)
Lemma SliceStable_spec (l g : list ResultContext) :
  SliceStable lessByTitle l = Some g ->
  g ≡ₚ l /\ Sorted titleLe g /\ (forall k, withTitle k g = withTitle k l).
Proof.
  unfold SliceStable.
  destruct (foldM _ [] l) as [p|] eqn:Hp; [|discriminate].
  intros [= <-]. destruct (sort_loop_spec _ _ _ Hp) as (Hperm & Hstab & Hsorted).
  split; [|split].
  - now rewrite reverse_Permutation, Hperm, app_nil_r.
  - apply (Sorted_reverse (flip titleLe)). apply Hsorted. constructor.
  - intros k. unfold withTitle at 1. rewrite filter_reverse. fold (withTitle k p).
    rewrite Hstab. simpl. now rewrite app_nil_r, reverse_involutive.
Qed.

(** *** When the sort panics *)

Lemma insertBack_total (x : ResultContext) (prefix : list ResultContext) :
  is_Some (RC_Dashboard x) ->
  Forall (fun r => is_Some (RC_Dashboard r)) prefix ->
  is_Some (insertBack lessByTitle x prefix).
Proof.
  intros [dx Hx]. induction 1 as [|y rest [dy Hy] _ IH]; simpl; [eauto|].
  unfold lessByTitle at 1. rewrite Hx, Hy.
  destruct (String.ltb _ _); [|eauto].
  destruct IH as [rest' ->]. eauto.
Qed.

Lemma insertBack_nil_dashboard (x y : ResultContext) (rest : list ResultContext) :
  RC_Dashboard x = None \/ RC_Dashboard y = None ->
  insertBack lessByTitle x (y :: rest) = None.
Proof. intros H. simpl. apply lessByTitle_None in H. now rewrite H. Qed.

Lemma sort_loop_total (l acc : list ResultContext) :
  Forall (fun r => is_Some (RC_Dashboard r)) acc ->
  Forall (fun r => is_Some (RC_Dashboard r)) l ->
  is_Some (foldM (fun prefix x => insertBack lessByTitle x prefix) acc l).
Proof.
  revert acc. induction l as [|x l IH]; intros acc Hacc Hl; simpl; [eauto|].
  apply Forall_cons in Hl as [Hx Hl].
  destruct (insertBack_total x acc Hx Hacc) as [acc' Hins]. rewrite Hins.
  apply IH; [|exact Hl].
  destruct (insertBack_spec _ _ _ Hins) as (Hperm & _). rewrite Hperm.
  now constructor.
Qed.

Lemma sort_loop_panics (l acc : list ResultContext) :
  acc <> [] ->
  Exists (fun r => RC_Dashboard r = None) l ->
  foldM (fun prefix x => insertBack lessByTitle x prefix) acc l = None.
Proof.
  revert acc. induction l as [|x l IH]; intros acc Hacc Hl; [inversion Hl|]. simpl.
  destruct (insertBack lessByTitle x acc) as [acc'|] eqn:Hins; [|reflexivity].
  destruct acc as [|y rest]; [contradiction|].
  apply Exists_cons in Hl as [Hx|Hl].
  - rewrite insertBack_nil_dashboard in Hins by auto. discriminate.
  - apply IH; [|exact Hl].
    destruct (insertBack_spec _ _ _ Hins) as (Hperm & _).
    intros ->. apply Permutation_nil_l in Hperm. discriminate.
Qed.

(** The sort panics exactly on a slice of two or more elements one of
    which has no dashboard: every element of such a slice is compared. *)
Lemma SliceStable_None (l : list ResultContext) :
  SliceStable lessByTitle l = None <->
  (2 <= length l)%nat /\ exists r, r ∈ l /\ RC_Dashboard r = None.
Proof.
  unfold SliceStable. destruct l as [|x [|y l]].
  - simpl. split; [discriminate | intros [H _]; lia].
  - simpl. split; [discriminate | intros [H _]; lia].
  - cbn [foldM insertBack].
    destruct (lessByTitle y x) as [b|] eqn:Hless.
    + apply lessByTitle_Some in Hless as (s & t & Hy & Hx & _).
      assert (Hy' : is_Some (RC_Dashboard y))
        by (unfold dashTitle in Hy; destruct (RC_Dashboard y); [eauto | discriminate]).
      assert (Hx' : is_Some (RC_Dashboard x))
        by (unfold dashTitle in Hx; destruct (RC_Dashboard x); [eauto | discriminate]).
      set (acc := if b then [x; y] else [y; x]).
      assert (Hacc : Forall (fun r => is_Some (RC_Dashboard r)) acc)
        by (destruct b; repeat constructor; assumption).
      assert (Hne : acc <> []) by (destruct b; discriminate).
      replace (if b then _ else _) with (Some acc) by (now destruct b).
      destruct (decide (Forall (fun r => is_Some (RC_Dashboard r)) l)) as [Hl|Hl].
      * destruct (sort_loop_total l acc Hacc Hl) as [p ->].
        split; [discriminate|]. intros (_ & r & Hr & Hnil). exfalso.
        rewrite Forall_forall in Hl.
        apply elem_of_cons in Hr as [->|Hr]; [rewrite Hnil in Hx'; now destruct Hx'|].
        apply elem_of_cons in Hr as [->|Hr]; [rewrite Hnil in Hy'; now destruct Hy'|].
        specialize (Hl r Hr). rewrite Hnil in Hl. now destruct Hl.
      * apply not_Forall_Exists in Hl; [|intros r; apply _].
        assert (Hex : Exists (fun r => RC_Dashboard r = None) l).
        { eapply Exists_impl; [exact Hl|]. intros r Hr. simpl in Hr.
          destruct (RC_Dashboard r); [exfalso; apply Hr; eauto | reflexivity]. }
        rewrite (sort_loop_panics l acc Hne Hex).
        split; [intros _|reflexivity]. split; [simpl; lia|].
        apply Exists_exists in Hex as (r & Hr & Hnil).
        exists r. split; [|exact Hnil]. now do 2 apply list_elem_of_further.
    + split; [intros _|reflexivity]. split; [simpl; lia|].
      apply lessByTitle_None in Hless as [Hy|Hx].
      * exists y. split; [apply list_elem_of_further, list_elem_of_here | exact Hy].
      * exists x. split; [apply list_elem_of_here | exact Hx].
Qed.

(** *** A stable sort has one result *)

#[local] Instance titleLe_trans : Transitive titleLe.
Proof.
  intros a b c. unfold titleLe.
  destruct (dashTitle a), (dashTitle b), (dashTitle c); try contradiction.
  apply (@transitivity _ String.le _).
Qed.

Lemma titleLe_antisym (a b : ResultContext) :
  titleLe a b -> titleLe b a -> dashTitle a = dashTitle b.
Proof.
  unfold titleLe. destruct (dashTitle a), (dashTitle b); try contradiction.
  intros H1 H2. f_equal. now apply (anti_symm String.le).
Qed.

Lemma withTitle_elem (k : option string) (l : list ResultContext) (r : ResultContext) :
  r ∈ withTitle k l <-> dashTitle r = k /\ r ∈ l.
Proof. unfold withTitle. now rewrite list_elem_of_filter. Qed.

Lemma withTitle_head (x : ResultContext) (l : list ResultContext) :
  withTitle (dashTitle x) (x :: l) = x :: withTitle (dashTitle x) l.
Proof. rewrite withTitle_cons. now rewrite decide_True by reflexivity. Qed.

(** Two lists ordered by title with the same contexts under every title,
    in the same order, are equal. *)
Lemma sorted_stable_unique (g1 g2 : list ResultContext) :
  Sorted titleLe g1 -> Sorted titleLe g2 ->
  (forall k, withTitle k g1 = withTitle k g2) ->
  g1 = g2.
Proof.
  intros H1 H2. apply Sorted_StronglySorted in H1, H2; try apply _.
  revert g2 H2. induction H1 as [|a g1 Hs1 IH Ha]; intros g2 H2 Heq.
  - destruct g2 as [|b g2]; [reflexivity|].
    specialize (Heq (dashTitle b)). rewrite withTitle_head in Heq. discriminate.
  - destruct H2 as [|b g2 Hs2 Hb].
    { specialize (Heq (dashTitle a)). rewrite withTitle_head in Heq. discriminate. }
    assert (Hk : dashTitle a = dashTitle b).
    { destruct (decide (dashTitle a = dashTitle b)) as [|Hne]; [assumption|].
      assert (Hb1 : b ∈ g1).
      { assert (Hin : b ∈ withTitle (dashTitle b) (a :: g1))
          by (rewrite Heq, withTitle_head; apply list_elem_of_here).
        apply withTitle_elem in Hin as [_ Hin].
        apply elem_of_cons in Hin as [->|Hin]; [contradiction | exact Hin]. }
      assert (Ha2 : a ∈ g2).
      { assert (Hin : a ∈ withTitle (dashTitle a) (b :: g2))
          by (rewrite <- Heq, withTitle_head; apply list_elem_of_here).
        apply withTitle_elem in Hin as [_ Hin].
        apply elem_of_cons in Hin as [->|Hin]; [contradiction | exact Hin]. }
      rewrite Forall_forall in Ha, Hb.
      apply titleLe_antisym; auto. }
    assert (Hab : a = b).
    { pose proof (Heq (dashTitle a)) as E. rewrite withTitle_head in E.
      rewrite Hk, withTitle_head in E. now injection E. }
    subst b. f_equal. apply IH; [exact Hs2|].
    intros k. specialize (Heq k). rewrite !withTitle_cons in Heq.
    now apply app_inv_head in Heq.
Qed.

Lemma SliceStable_perm_None (l1 l2 : list ResultContext) :
  l1 ≡ₚ l2 ->
  SliceStable lessByTitle l1 = None -> SliceStable lessByTitle l2 = None.
Proof.
  intros Hperm. rewrite !SliceStable_None. intros (Hlen & r & Hr & Hnil).
  split; [now rewrite <- Hperm|]. exists r. now rewrite <- Hperm.
Qed.

(** The sorted group depends only on which contexts it holds and on
    the order of the contexts of equal title. *)
Lemma SliceStable_order_independent (l1 l2 : list ResultContext) :
  l1 ≡ₚ l2 ->
  (forall k, withTitle k l1 = withTitle k l2) ->
  SliceStable lessByTitle l1 = SliceStable lessByTitle l2.
Proof.
  intros Hperm Heq.
  destruct (SliceStable lessByTitle l1) as [g1|] eqn:E1.
  - destruct (SliceStable lessByTitle l2) as [g2|] eqn:E2.
    + apply SliceStable_spec in E1 as (_ & Hs1 & Hst1).
      apply SliceStable_spec in E2 as (_ & Hs2 & Hst2).
      f_equal. apply sorted_stable_unique; auto.
      intros k. now rewrite Hst1, Hst2.
    + apply (SliceStable_perm_None l2 l1) in E2; [congruence | now symmetry].
  - symmetry. now apply (SliceStable_perm_None l1 l2).
Qed.

Lemma withTitle_short (k : option string) (l : list ResultContext) :
  NoDup (dashTitle <$> l) -> (length (withTitle k l) <= 1)%nat.
Proof.
  induction l as [|x l IH]; simpl; [intros _; simpl; lia|].
  rewrite NoDup_cons. intros [Hx Hl]. rewrite withTitle_cons.
  destruct (decide (dashTitle x = k)) as [<-|]; simpl; [|auto].
  destruct (withTitle (dashTitle x) l) as [|y ys] eqn:E; [simpl; lia|].
  exfalso. apply Hx.
  assert (Hy : y ∈ withTitle (dashTitle x) l) by (rewrite E; apply list_elem_of_here).
  apply withTitle_elem in Hy as [<- Hy]. now apply list_elem_of_fmap_2.
Qed.

(** Reordering contexts whose titles are pairwise distinct keeps the
    contexts of each title in order. *)
Lemma withTitle_distinct_perm (k : option string) (l1 l2 : list ResultContext) :
  l1 ≡ₚ l2 -> NoDup (dashTitle <$> l1) -> withTitle k l1 = withTitle k l2.
Proof.
  intros Hperm Hnd.
  assert (Hp : withTitle k l1 ≡ₚ withTitle k l2) by (unfold withTitle; now rewrite Hperm).
  pose proof (withTitle_short k l1 Hnd) as Hlen.
  destruct (withTitle k l1) as [|x [|y ys]]; simpl in Hlen; [| |lia].
  - now apply Permutation_nil_l.
  - now apply Permutation_singleton_l.
Qed.

(** ** Grouping by rule *)

Lemma group_cons (name : string) (x : ResultContext) (l : list ResultContext) :
  group name (x :: l)
  = (if decide (ruleName x = Some name) then [x] else []) ++ group name l.
Proof. unfold group. rewrite filter_cons. now destruct (decide (ruleName x = Some name)). Qed.

Lemma group_elem (name : string) (l : list ResultContext) (r : ResultContext) :
  r ∈ group name l <-> ruleName r = Some name /\ r ∈ l.
Proof. unfold group. now rewrite list_elem_of_filter. Qed.

Lemma group_perm (name : string) (l1 l2 : list ResultContext) :
  l1 ≡ₚ l2 -> group name l1 ≡ₚ group name l2.
Proof. intros Hperm. unfold group. rewrite Hperm. reflexivity. Qed.

(** The first loop appends every context to the slice of its rule. *)
Lemma build_groups_spec (l : list ResultContext) (acc ret : gmap string (list ResultContext)) :
  foldM appendByRule acc l = Some ret ->
  (forall name, default [] (ret !! name) = default [] (acc !! name) ++ group name l)
  /\ (forall name, is_Some (ret !! name) <-> is_Some (acc !! name) \/ group name l <> []).
Proof.
  revert acc. induction l as [|x l IH]; intros acc; simpl.
  - intros [= <-]. split; intros name.
    + now rewrite app_nil_r.
    + unfold group. rewrite filter_nil.
      split; [auto | intros [?|?]; [assumption | contradiction]].
  - unfold appendByRule at 1. destruct (RC_Rule x) as [rule|] eqn:Hrule; [|discriminate].
    intros Hret. destruct (IH _ Hret) as [Hgroups Hkeys].
    assert (Hname : ruleName x = Some (Name rule)) by (unfold ruleName; now rewrite Hrule).
    split; intros name; rewrite group_cons, Hname.
    + rewrite Hgroups. destruct (decide (Some (Name rule) = Some name)) as [[= ->]|Hne].
      * rewrite lookup_insert_eq. simpl. now rewrite <- app_assoc.
      * rewrite lookup_insert_ne by congruence. reflexivity.
    + rewrite Hkeys. destruct (decide (Some (Name rule) = Some name)) as [[= ->]|Hne].
      * rewrite lookup_insert_eq. simpl. split; [intros _; right; discriminate | eauto].
      * rewrite lookup_insert_ne by congruence. simpl. reflexivity.
Qed.

Lemma build_groups_None (l : list ResultContext) (acc : gmap string (list ResultContext)) :
  foldM appendByRule acc l = None <-> exists r, r ∈ l /\ RC_Rule r = None.
Proof.
  revert acc. induction l as [|x l IH]; intros acc; simpl.
  - split; [discriminate | intros (r & Hr & _); inversion Hr].
  - unfold appendByRule at 1. destruct (RC_Rule x) as [rule|] eqn:Hrule.
    + rewrite IH. split; intros (r & Hr & Hnil); exists r.
      * split; [now apply list_elem_of_further | exact Hnil].
      * split; [|exact Hnil].
        apply elem_of_cons in Hr as [->|Hr]; [congruence | exact Hr].
    + split; [intros _|reflexivity]. exists x. split; [apply list_elem_of_here | exact Hrule].
Qed.

Lemma build_groups_lookup (l : list ResultContext) (ret : gmap string (list ResultContext))
    (name : string) :
  foldM appendByRule ∅ l = Some ret ->
  ret !! name = match group name l with [] => None | g => Some g end.
Proof.
  intros H. destruct (build_groups_spec _ _ _ H) as [Hgroups Hkeys].
  specialize (Hgroups name). specialize (Hkeys name).
  rewrite lookup_empty in Hgroups, Hkeys. simpl in Hgroups.
  destruct (ret !! name) as [g|] eqn:E; simpl in Hgroups.
  - subst g. destruct (group name l); [|reflexivity].
    exfalso. destruct Hkeys as [[Hk|Hk] _]; [eauto | now destruct Hk | contradiction].
  - rewrite <- Hgroups. reflexivity.
Qed.

(** The second loop sorts the slice of every key. *)
Lemma sortGroup_Some (kv kv' : string * list ResultContext) :
  sortGroup kv = Some kv' <-> kv'.1 = kv.1 /\ SliceStable lessByTitle kv.2 = Some kv'.2.
Proof.
  unfold sortGroup. destruct kv as [k g], kv' as [k' g']. simpl.
  destruct (SliceStable lessByTitle g); split.
  - intros [= <- <-]. auto.
  - intros [-> [= ->]]. reflexivity.
  - discriminate.
  - intros [_ ?]. discriminate.
Qed.

Lemma sort_groups_Some (ret : gmap string (list ResultContext))
    (groups : list (string * list ResultContext)) (name : string) :
  mapM sortGroup (map_to_list ret) = Some groups ->
  (list_to_map groups : gmap string (list ResultContext)) !! name
  = ret !! name ≫= SliceStable lessByTitle.
Proof.
  intros H. apply mapM_Some in H.
  assert (Hfst : groups.*1 = (map_to_list ret).*1).
  { induction H as [|kv kv' l l' Hkv _ IH]; [reflexivity|].
    rewrite !fmap_cons. apply sortGroup_Some in Hkv as [Hk _]. now f_equal. }
  assert (Hnd : NoDup (groups.*1)) by (rewrite Hfst; apply NoDup_fst_map_to_list).
  destruct (ret !! name) as [g|] eqn:E; simpl.
  - apply elem_of_map_to_list in E. apply list_elem_of_lookup in E as [i Hi].
    destruct (Forall2_lookup_l _ _ _ _ _ H Hi) as ([k' g'] & Hi' & Hkv).
    apply sortGroup_Some in Hkv as [Hk Hg]. simpl in Hk, Hg. subst k'. rewrite Hg.
    apply elem_of_list_to_map_1; [exact Hnd|]. apply list_elem_of_lookup. eauto.
  - apply not_elem_of_list_to_map_1. rewrite Hfst.
    intros Hin. apply list_elem_of_fmap in Hin as ([k g] & -> & Hin).
    apply elem_of_map_to_list in Hin. simpl in E. congruence.
Qed.

Lemma sort_groups_None (ret : gmap string (list ResultContext)) :
  mapM sortGroup (map_to_list ret) = None <->
  exists name g, ret !! name = Some g /\ SliceStable lessByTitle g = None.
Proof.
  rewrite mapM_None, Exists_exists. split.
  - intros ([k g] & Hin & Hnone). exists k, g.
    split; [now apply elem_of_map_to_list|].
    unfold sortGroup in Hnone. simpl in Hnone.
    destruct (SliceStable lessByTitle g); [discriminate | reflexivity].
  - intros (k & g & Hk & Hnone). exists (k, g).
    split; [now apply elem_of_map_to_list|].
    unfold sortGroup. simpl. now rewrite Hnone.
Qed.

(** What [ByRule] returns under each rule name. *)
Lemma ByRule_lookup (rs : ResultSet) (m : gmap string (list ResultContext)) (name : string) :
  ByRule rs = Some m ->
  m !! name = match group name (RS_results rs) with
              | [] => None
              | g => SliceStable lessByTitle g
              end
  /\ (group name (RS_results rs) <> [] -> is_Some (m !! name)).
Proof.
  unfold ByRule.
  destruct (foldM appendByRule ∅ (RS_results rs)) as [ret|] eqn:Hret; [|discriminate].
  destruct (mapM sortGroup (map_to_list ret)) as [groups|] eqn:Hgroups; [|discriminate].
  intros [= <-]. rewrite (sort_groups_Some _ _ name Hgroups).
  rewrite (build_groups_lookup _ _ name Hret).
  destruct (group name (RS_results rs)) as [|x g] eqn:Eg; simpl; [split; [reflexivity|]|].
  - intros Hne. contradiction.
  - split; [reflexivity|]. intros _.
    destruct (SliceStable lessByTitle (x :: g)) as [g'|] eqn:Es; [eauto|].
    exfalso. assert (Hnone : mapM sortGroup (map_to_list ret) = None); [|congruence].
    apply sort_groups_None. exists name, (x :: g). split; [|exact Es].
    rewrite (build_groups_lookup _ _ name Hret), Eg. reflexivity.
Qed.

(** [ByRule] panics exactly when a context has no rule, or a group of
    two or more contexts holds one without a dashboard. *)
Lemma ByRule_None (rs : ResultSet) :
  ByRule rs = None <->
  (exists r, r ∈ RS_results rs /\ RC_Rule r = None)
  \/ (exists name, (2 <= length (group name (RS_results rs)))%nat
                   /\ exists r, r ∈ group name (RS_results rs) /\ RC_Dashboard r = None).
Proof.
  unfold ByRule.
  destruct (foldM appendByRule ∅ (RS_results rs)) as [ret|] eqn:Hret.
  - assert (Hrules : ~ exists r, r ∈ RS_results rs /\ RC_Rule r = None).
    { intros H. apply (build_groups_None _ ∅) in H. congruence. }
    destruct (mapM sortGroup (map_to_list ret)) as [groups|] eqn:Hgroups.
    + split; [discriminate|]. intros [H|(name & Hlen & Hnil)]; [contradiction|].
      exfalso. assert (Hnone : mapM sortGroup (map_to_list ret) = None); [|congruence].
      apply sort_groups_None. exists name, (group name (RS_results rs)).
      split; [|now apply SliceStable_None].
      rewrite (build_groups_lookup _ _ name Hret).
      destruct (group name (RS_results rs)); [simpl in Hlen; lia | reflexivity].
    + split; [intros _|reflexivity]. right.
      apply sort_groups_None in Hgroups as (name & g & Hg & Hnone).
      rewrite (build_groups_lookup _ _ name Hret) in Hg.
      exists name. apply SliceStable_None.
      destruct (group name (RS_results rs)); [discriminate|]. now injection Hg as <-.
  - split; [intros _|reflexivity]. left. now apply (build_groups_None _ ∅).
Qed.

Lemma ByRule_total (rs : ResultSet) :
  Forall (fun r => is_Some (RC_Rule r) /\ is_Some (RC_Dashboard r)) (RS_results rs) ->
  is_Some (ByRule rs).
Proof.
  rewrite Forall_forall. intros Hall.
  destruct (ByRule rs) as [m|] eqn:E; [eauto|]. exfalso.
  apply ByRule_None in E as [(r & Hr & Hnil)|(name & _ & r & Hr & Hnil)].
  - destruct (Hall r Hr) as [[rule Hrule] _]. congruence.
  - apply group_elem in Hr as [_ Hr].
    destruct (Hall r Hr) as [_ [d Hd]]. congruence.
Qed.

Lemma ByRule_None_perm (rs rs' : ResultSet) :
  RS_results rs ≡ₚ RS_results rs' -> ByRule rs = None -> ByRule rs' = None.
Proof.
  intros Hperm. rewrite !ByRule_None.
  intros [(r & Hr & Hnil)|(name & Hlen & r & Hr & Hnil)].
  - left. exists r. now rewrite <- Hperm.
  - right. exists name. pose proof (group_perm name _ _ Hperm) as Hg.
    split; [now rewrite <- Hg|]. exists r. now rewrite <- Hg.
Qed.

(** The grouped order does not depend on the insertion order, as long
    as the contexts of one rule and one title stay in order. *)
Lemma ByRule_order_independent (rs rs' : ResultSet) :
  RS_results rs ≡ₚ RS_results rs' ->
  (forall name k, withTitle k (group name (RS_results rs))
                  = withTitle k (group name (RS_results rs'))) ->
  ByRule rs' = ByRule rs.
Proof.
  intros Hperm Heq.
  destruct (ByRule rs) as [m|] eqn:E; [|now apply (ByRule_None_perm rs rs')].
  destruct (ByRule rs') as [m'|] eqn:E'.
  - f_equal. apply map_eq. intros name.
    destruct (ByRule_lookup rs m name E) as [-> _].
    destruct (ByRule_lookup rs' m' name E') as [-> _].
    pose proof (group_perm name _ _ Hperm) as Hg. specialize (Heq name).
    destruct (group name (RS_results rs)) as [|x g], (group name (RS_results rs')) as [|x' g'].
    + reflexivity.
    + apply Permutation_nil_l in Hg. discriminate.
    + apply Permutation_nil_r in Hg. discriminate.
    + symmetry. now apply SliceStable_order_independent.
  - apply (ByRule_None_perm rs' rs) in E'; [congruence | now symmetry].
Qed.

(** C8: [ByRule] returns one group per rule name that occurs; each
    group holds exactly the contexts of that rule, ordered by dashboard
    title, with contexts of equal title in their original order; and the
    result is the same for any other insertion order of contexts whose
    titles are pairwise distinct within each rule. [ByRule] returns
    whenever every context has a rule and a dashboard. *)
Theorem C8_ByRule_groups_stably_sorted (rs : ResultSet) :
  (Forall (fun r => is_Some (RC_Rule r) /\ is_Some (RC_Dashboard r)) (RS_results rs) ->
   is_Some (ByRule rs))
  /\ (forall m name,
        ByRule rs = Some m ->
        (m !! name = None <-> group name (RS_results rs) = [])
        /\ forall g,
            m !! name = Some g ->
            g ≡ₚ group name (RS_results rs)
            /\ Sorted titleLe g
            /\ forall k, withTitle k g = withTitle k (group name (RS_results rs)))
  /\ (forall rs',
        RS_results rs ≡ₚ RS_results rs' ->
        (forall name, NoDup (dashTitle <$> group name (RS_results rs))) ->
        ByRule rs' = ByRule rs).
Proof.
  split; [apply ByRule_total|]. split.
  - intros m name Hm. destruct (ByRule_lookup rs m name Hm) as [Hlookup Hsome].
    split.
    + split.
      * intros Hnone. destruct (group name (RS_results rs)); [reflexivity|].
        destruct Hsome as [g Hg]; [discriminate | congruence].
      * intros Hnil. now rewrite Hlookup, Hnil.
    + intros g Hg. rewrite Hg in Hlookup.
      destruct (group name (RS_results rs)) as [|x l]; [discriminate|].
      symmetry in Hlookup. now apply SliceStable_spec.
  - intros rs' Hperm Hnd. apply ByRule_order_independent; [exact Hperm|].
    intros name k. apply withTitle_distinct_perm; [|apply Hnd].
    now apply group_perm.
Qed.

Lemma C8_ByRule_groups_stably_sorted_witness :
  is_Some (ByRule sampleResults)
  /\ ByRule sampleResultsSwapped = ByRule sampleResults
  /\ ByRule sampleResults
     = Some {[ "rule1"%string := [ctxOf "rule1" "dashA" Warning; ctxOf "rule1" "dashB" Error];
               "rule2"%string := [ctxOf "rule2" "dashC" Success] ]}.
Proof.
  destruct (C8_ByRule_groups_stably_sorted sampleResults) as (Htotal & _ & Hperm).
  split; [|split].
  - apply Htotal. repeat constructor; simpl; eauto.
  - apply Hperm.
    + simpl. rewrite (Permutation_swap (ctxOf "rule1" "dashB" Error)).
      apply perm_skip. apply perm_swap.
    + intros name. unfold group. simpl. rewrite !filter_cons, filter_nil.
      repeat case_decide; simpl;
        apply (bool_decide_unpack _); vm_compute; reflexivity.
  - vm_compute. reflexivity.
Defined.

(** C10: the comparison of [ByRule] reads the dashboard of both
    contexts without a nil check. [ByRule] therefore returns only if in
    every group of two or more contexts each context has a dashboard
    (and every context has a rule), and it panics for every group of two
    or more contexts that holds a context without dashboard. *)
Theorem C10_ByRule_nil_dashboard (rs : ResultSet) :
  (forall x y, lessByTitle x y = None <-> RC_Dashboard x = None \/ RC_Dashboard y = None)
  /\ (ByRule rs = None <->
      (exists r, r ∈ RS_results rs /\ RC_Rule r = None)
      \/ (exists name, (2 <= length (group name (RS_results rs)))%nat
                       /\ exists r, r ∈ group name (RS_results rs) /\ RC_Dashboard r = None))
  /\ (is_Some (ByRule rs) ->
      forall name r, (2 <= length (group name (RS_results rs)))%nat ->
                     r ∈ group name (RS_results rs) -> is_Some (RC_Dashboard r))
  /\ (forall name r, (2 <= length (group name (RS_results rs)))%nat ->
                     r ∈ group name (RS_results rs) -> RC_Dashboard r = None ->
                     SliceStable lessByTitle (group name (RS_results rs)) = None
                     /\ ByRule rs = None).
Proof.
  split; [exact lessByTitle_None|]. split; [apply ByRule_None|]. split.
  - intros [m Hm] name r Hlen Hr.
    destruct (RC_Dashboard r) as [d|] eqn:Hd; [eauto|]. exfalso.
    assert (Hnone : ByRule rs = None); [|congruence].
    apply ByRule_None. right. exists name. eauto.
  - intros name r Hlen Hr Hnil. split.
    + apply SliceStable_None. eauto.
    + apply ByRule_None. right. exists name. eauto.
Qed.

Lemma C10_ByRule_nil_dashboard_witness :
  (SliceStable lessByTitle (group "rule1" (RS_results nilDashboardGroup)) = None
   /\ ByRule nilDashboardGroup = None)
  /\ (forall r, r ∈ group "rule1" (RS_results sampleResults) -> is_Some (RC_Dashboard r)).
Proof.
  split.
  - destruct (C10_ByRule_nil_dashboard nilDashboardGroup) as (_ & _ & _ & H).
    apply (H "rule1"%string (ctxNoDash "rule1" Error)).
    + vm_compute. lia.
    + apply group_elem. split; [reflexivity|].
      simpl. apply list_elem_of_further, list_elem_of_here.
    + reflexivity.
  - destruct (C10_ByRule_nil_dashboard sampleResults) as (_ & _ & H & _).
    intros r. apply (H ltac:(vm_compute; eauto) "rule1"%string r).
    vm_compute. lia.
Defined.

(** * Further properties of the configuration resolver *)

(** X1: [Apply] panics exactly on a context without rule; otherwise it
    returns the context with the same rule, dashboard, panel and target,
    a severity that is the original one, [Exclude] or [Warning], and a
    message that is the original one or the original one followed by
    " (Excluded)". *)
Theorem X1_Apply_rewrites_only_the_result (cf : ConfigurationFile) (res : ResultContext) :
  (Apply cf res = None <-> RC_Rule res = None)
  /\ forall res',
      Apply cf res = Some res' ->
      RC_Rule res' = RC_Rule res /\ RC_Dashboard res' = RC_Dashboard res
      /\ RC_Panel res' = RC_Panel res /\ RC_Target res' = RC_Target res
      /\ (sevOf res' = sevOf res \/ sevOf res' = Exclude \/ sevOf res' = Warning)
      /\ (msgOf res' = msgOf res \/ msgOf res' = msgOf res +:+ " (Excluded)").
Proof.
  split; [apply Apply_None|].
  intros res' H. destruct (RC_Rule res) as [rule|] eqn:Hrule.
  - rewrite (Apply_char cf res rule Hrule) in H. injection H as <-. simpl.
    rewrite Hrule. unfold sevOf, msgOf. simpl.
    repeat split;
      destruct (passMatched (CF_Warnings cf) (Name rule) res),
               (passMatched (CF_Exclusions cf) (Name rule) res); auto.
  - apply (Apply_None cf) in Hrule. rewrite Hrule in H. discriminate.
Qed.

Lemma X1_Apply_rewrites_only_the_result_witness :
  exists res',
    Apply cfBoth ctxDash1 = Some res'
    /\ RC_Rule res' = RC_Rule ctxDash1 /\ RC_Dashboard res' = RC_Dashboard ctxDash1
    /\ sevOf res' = Warning.
Proof.
  exists (setResult ctxDash1 (mkResult Warning "foo (Excluded)")).
  assert (H : Apply cfBoth ctxDash1
              = Some (setResult ctxDash1 (mkResult Warning "foo (Excluded)")))
    by (vm_compute; reflexivity).
  destruct (X1_Apply_rewrites_only_the_result cfBoth ctxDash1) as [_ Hframe].
  destruct (Hframe _ H) as (Hr & Hd & _).
  repeat split; assumption || reflexivity.
Defined.

(** X2: a context whose rule name is a key of neither map comes back
    from [Apply] unchanged; in particular the configuration made by
    [NewConfigurationFile] changes no context. *)
Theorem X2_Apply_unconfigured_rule
    (cf : ConfigurationFile) (res : ResultContext) (rule : Rule)
    (Hrule : RC_Rule res = Some rule) :
  (CF_Exclusions cf !! Name rule = None -> CF_Warnings cf !! Name rule = None ->
   Apply cf res = Some res)
  /\ Apply NewConfigurationFile res = Some res.
Proof.
  assert (H : forall cf', CF_Exclusions cf' !! Name rule = None ->
                          CF_Warnings cf' !! Name rule = None ->
                          Apply cf' res = Some res).
  { intros cf' He Hw. rewrite (Apply_char cf' res rule Hrule).
    unfold passMatched. rewrite He, Hw. simpl.
    destruct res as [[sev msg] ? ? ? ?]. reflexivity. }
  split; [apply H|]. apply H; apply lookup_empty.
Qed.

Lemma X2_Apply_unconfigured_rule_witness :
  Apply cfBoth (ctxOf "rule2" "dash1" Error) = Some (ctxOf "rule2" "dash1" Error)
  /\ Apply NewConfigurationFile ctxDash1 = Some ctxDash1.
Proof.
  split.
  - apply (X2_Apply_unconfigured_rule cfBoth (ctxOf "rule2" "dash1" Error) (testRule "rule2"));
      vm_compute; reflexivity.
  - apply (X2_Apply_unconfigured_rule cfBoth ctxDash1 (testRule "rule1")). reflexivity.
Defined.

Lemma excludedBy_setResult (cf : ConfigurationFile) (res : ResultContext) (r : Result) :
  excludedBy cf (setResult res r) = excludedBy cf res.
Proof. reflexivity. Qed.

Lemma Apply_twice
    (cf : ConfigurationFile) (res r1 : ResultContext)
    (H1 : Apply cf res = Some r1) :
  exists r2,
    Apply cf r1 = Some r2
    /\ sevOf r2 = sevOf r1
    /\ msgOf r2 = (if excludedBy cf res then msgOf r1 +:+ " (Excluded)" else msgOf r1)
    /\ (r2 = r1 <-> excludedBy cf res = false).
Proof.
  destruct (RC_Rule res) as [rule|] eqn:Hrule;
    [|apply (Apply_None cf) in Hrule; congruence].
  rewrite (Apply_char cf res rule Hrule) in H1. injection H1 as <-.
  eexists. split; [apply (Apply_char _ _ rule); exact Hrule|].
  unfold excludedBy. rewrite Hrule. simpl. rewrite !passMatched_setResult.
  unfold sevOf, msgOf. simpl.
  destruct (passMatched (CF_Exclusions cf) (Name rule) res) eqn:He,
           (passMatched (CF_Warnings cf) (Name rule) res) eqn:Hw; simpl;
    (split; [reflexivity|]); (split; [reflexivity|]);
    (split; [|try discriminate; reflexivity]); try reflexivity;
    intros Heq; exfalso; apply (f_equal msgOf) in Heq; unfold msgOf in Heq; simpl in Heq;
    revert Heq; apply append_suffix_neq; discriminate.
Qed.

(** X3: applying the same configuration a second time keeps the
    severity of the first application, and appends " (Excluded)" once
    more when the exclusion pass matches; the second application
    changes nothing exactly when the exclusion pass does not match. *)
Theorem X3_Apply_twice
    (cf : ConfigurationFile) (res r1 : ResultContext)
    (H1 : Apply cf res = Some r1) :
  exists r2,
    Apply cf r1 = Some r2
    /\ sevOf r2 = sevOf r1
    /\ msgOf r2 = (if excludedBy cf res then msgOf r1 +:+ " (Excluded)" else msgOf r1)
    /\ (r2 = r1 <-> excludedBy cf res = false).
Proof. exact (Apply_twice cf res r1 H1). Qed.

Lemma X3_Apply_twice_witness :
  exists r2,
    Apply cfBoth (setResult ctxDash1 (mkResult Warning "foo (Excluded)")) = Some r2
    /\ sevOf r2 = Warning
    /\ msgOf r2 = "foo (Excluded) (Excluded)"%string.
Proof.
  destruct (X3_Apply_twice cfBoth ctxDash1
              (setResult ctxDash1 (mkResult Warning "foo (Excluded)")))
    as (r2 & H2 & Hs & Hm & _); [vm_compute; reflexivity|].
  exists r2. repeat split; assumption.
Defined.

Lemma passMatched_insert (m : gmap string (option ConfigurationRuleEntries))
    (name : string) (e : ConfigurationRuleEntries) (res : ResultContext) :
  passMatched (<[name := Some e]> m) name res
  = match CRE_Entries e with
    | [] => true
    | _ => existsb (fun ce => IsMatch ce res) (CRE_Entries e)
    end.
Proof.
  unfold passMatched. rewrite lookup_insert_eq, loop_matched. simpl.
  now destruct (CRE_Entries e).
Qed.

Lemma passMatched_insert_ne (m : gmap string (option ConfigurationRuleEntries))
    (name name' : string) (o : option ConfigurationRuleEntries) (res : ResultContext) :
  name <> name' ->
  passMatched (<[name := o]> m) name' res = passMatched m name' res.
Proof. intros Hne. unfold passMatched. now rewrite lookup_insert_ne. Qed.

(** X4: adding an entry to the entries of a rule widens a non-empty
    entry list by the contexts the new entry matches, but narrows an
    empty list, which matched every context, to the contexts the new
    entry matches. *)
Theorem X4_AddEntry_widens_or_narrows
    (m : gmap string (option ConfigurationRuleEntries)) (name : string)
    (e : ConfigurationRuleEntries) (ce : ConfigurationEntry) (res : ResultContext)
    (Hm : m !! name = Some (Some e)) :
  CRE_Entries (AddEntry e ce) = CRE_Entries e ++ [ce]
  /\ passMatched (<[name := Some (AddEntry e ce)]> m) name res
     = match CRE_Entries e with
       | [] => IsMatch ce res
       | _ => passMatched m name res || IsMatch ce res
       end.
Proof.
  split; [reflexivity|].
  rewrite passMatched_insert. unfold AddEntry. simpl.
  unfold passMatched. rewrite Hm, loop_matched. simpl.
  destruct (CRE_Entries e) as [|ce0 l]; simpl.
  - now rewrite orb_false_r.
  - rewrite existsb_app. simpl. now rewrite orb_false_r, orb_assoc.
Qed.

Lemma X4_AddEntry_widens_or_narrows_witness :
  passMatched (CF_Exclusions cfRuleWide) "rule1" (ctxOf "rule1" "dash2" Error) = true
  /\ passMatched (<[ "rule1"%string := Some (AddEntry noEntries entryDash1) ]>
                    (CF_Exclusions cfRuleWide))
                 "rule1" (ctxOf "rule1" "dash2" Error) = false.
Proof.
  split; [vm_compute; reflexivity|].
  destruct (X4_AddEntry_widens_or_narrows (CF_Exclusions cfRuleWide) "rule1" noEntries
              entryDash1 (ctxOf "rule1" "dash2" Error)) as [_ H];
    [vm_compute; reflexivity|].
  rewrite H. reflexivity.
Defined.

(** ** The helpers of the test suite *)

(** An entry written with the coordinates of a context matches it. *)
Lemma IsMatch_newResultContext (reason rule d p t : string) (sev : Severity) :
  IsMatch (mkConfigurationEntry reason d p t) (newResultContext rule d p t sev) = true.
Proof.
  apply IsMatch_true_iff. unfold newResultContext. simpl. split; [|split].
  - intros x. destruct (String.eqb d EmptyString); simpl; intros [= <-]. reflexivity.
  - intros x. destruct (String.eqb p EmptyString); simpl; intros [= <-]. reflexivity.
  - intros x idx. destruct (String.eqb t EmptyString); simpl; [discriminate|].
    destruct (Atoi t) as [i|]; [|discriminate]. intros [= <-] _ [= <-]. reflexivity.
Qed.

(** A context without dashboard, panel and target is matched by every
    entry. *)
Lemma IsMatch_rule_scoped (ce : ConfigurationEntry) (r : ResultContext) :
  RC_Dashboard r = None -> RC_Panel r = None -> RC_Target r = None ->
  IsMatch ce r = true.
Proof. intros Hd Hp Ht. unfold IsMatch. now rewrite Hd, Hp, Ht. Qed.

Lemma anySet_false (d p t : string) :
  anySet d p t = false -> d = EmptyString /\ p = EmptyString /\ t = EmptyString.
Proof.
  unfold anySet.
  destruct (String.eqb_spec d EmptyString), (String.eqb_spec p EmptyString),
           (String.eqb_spec t EmptyString); simpl; try discriminate; auto.
Qed.

Lemma passMatched_object (m : gmap string (option ConfigurationRuleEntries))
    (name : string) (o : option ConfigurationRuleEntries) (res : ResultContext) :
  m !! name = Some o -> passMatched m name res = objectMatches o res.
Proof.
  intros Hm. unfold passMatched. rewrite Hm. destruct o as [e|]; [|reflexivity].
  rewrite loop_matched. simpl. now destruct (CRE_Entries e).
Qed.

Lemma objectMatches_appended (o : option ConfigurationRuleEntries)
    (rule d p t : string) (sev : Severity) :
  objectMatches (appendEntry d p t <$> o) (newResultContext rule d p t sev) = true.
Proof.
  destruct o as [e|]; [|reflexivity]. simpl.
  destruct (CRE_Entries e) as [|ce l]; simpl.
  - now rewrite IsMatch_newResultContext.
  - rewrite existsb_app. simpl. rewrite IsMatch_newResultContext.
    now rewrite orb_true_r, orb_true_r.
Qed.

Lemma objectMatches_rule_scoped (o : option ConfigurationRuleEntries)
    (rule d p t : string) (sev : Severity) :
  anySet d p t = false -> objectMatches o (newResultContext rule d p t sev) = true.
Proof.
  intros (-> & -> & ->)%anySet_false. destruct o as [e|]; [|reflexivity].
  unfold objectMatches. destruct (CRE_Entries e) as [|ce l]; [reflexivity|].
  cbn [existsb]. rewrite IsMatch_rule_scoped; reflexivity.
Qed.

Lemma derefMap_lookup (objects : list ConfigurationRuleEntries)
    (m : gmap string (option nat)) (name : string) :
  derefMap objects (Some m) !! name = deref objects <$> m !! name.
Proof. unfold derefMap. apply lookup_fmap. Qed.

Lemma derefMap_lookup_None (objects objects' : list ConfigurationRuleEntries)
    (m : option (gmap string (option nat))) (name : string) :
  derefMap objects m !! name = None -> derefMap objects' m !! name = None.
Proof.
  destruct m as [m|]; [|intros _; apply lookup_empty].
  rewrite !derefMap_lookup. now destruct (m !! name).
Qed.

(** The four ways through the helper body. *)
Lemma appendConfig_Some (objects : list ConfigurationRuleEntries)
    (m : gmap string (option nat)) (rule d p t : string) :
  exists ptr base,
    appendConfig objects (Some m) rule d p t
    = Some (if anySet d p t then alter (appendEntry d p t) ptr base else base,
            <[rule := Some ptr]> m)
    /\ ((readPtr (Some m) rule = Some ptr /\ base = objects)
        \/ (readPtr (Some m) rule = None /\ ptr = length objects
            /\ base = objects ++ [mkConfigurationRuleEntries EmptyString []])).
Proof.
  unfold appendConfig. destruct (readPtr (Some m) rule) as [ptr|] eqn:Hptr.
  - exists ptr, objects. split; [reflexivity | now left].
  - eexists _, _. split; [reflexivity | right; auto].
Qed.

Lemma appendConfig_matches (objects objects' : list ConfigurationRuleEntries)
    (m m' : gmap string (option nat)) (rule d p t : string) (sev : Severity) :
  appendConfig objects (Some m) rule d p t = Some (objects', m') ->
  passMatched (derefMap objects' (Some m')) rule (newResultContext rule d p t sev) = true.
Proof.
  destruct (appendConfig_Some objects m rule d p t) as (ptr & base & -> & Hbase).
  intros [= <- <-].
  erewrite passMatched_object
    by (rewrite derefMap_lookup, lookup_insert_eq; reflexivity).
  simpl. destruct (anySet d p t) eqn:Hany.
  - rewrite list_lookup_alter_eq. apply objectMatches_appended.
  - now apply objectMatches_rule_scoped.
Qed.



Lemma passMatched_lookup_ext (m m' : gmap string (option ConfigurationRuleEntries))
    (name : string) (res : ResultContext) :
  m !! name = m' !! name -> passMatched m name res = passMatched m' name res.
Proof. intros H. unfold passMatched. now rewrite H. Qed.

Lemma readPtr_insert (m : gmap string (option nat)) (rule r : string) (ptr : nat) :
  readPtr (Some (<[rule := Some ptr]> m)) r
  = if decide (rule = r) then Some ptr else readPtr (Some m) r.
Proof.
  unfold readPtr. destruct (decide (rule = r)) as [->|Hne].
  - now rewrite lookup_insert_eq.
  - now rewrite lookup_insert_ne.
Qed.

Lemma mapsOK_sym (n : nat) (m1 m2 : option (gmap string (option nat))) :
  mapsOK n m1 m2 -> mapsOK n m2 m1.
Proof.
  intros (Hwf & H1 & H2 & Hdis). repeat split; auto.
  - intros rule ptr [H|H]; apply (Hwf rule ptr); auto.
  - intros r1 r2 ptr Hr1 Hr2. exact (Hdis r2 r1 ptr Hr2 Hr1).
Qed.

Lemma deref_readPtr (objects objects' : list ConfigurationRuleEntries)
    (m : gmap string (option nat)) (name : string) :
  (forall a, readPtr (Some m) name = Some a -> objects' !! a = objects !! a) ->
  derefMap objects' (Some m) !! name = derefMap objects (Some m) !! name.
Proof.
  intros H. rewrite !derefMap_lookup. unfold readPtr in H.
  destruct (m !! name) as [[a|]|]; simpl; [|reflexivity..].
  now rewrite (H a eq_refl).
Qed.

(** One helper call on maps in order keeps them in order and leaves
    what every other key holds as it was. *)
Lemma appendConfig_frame (objects objects' : list ConfigurationRuleEntries)
    (m m' : gmap string (option nat)) (m2 : option (gmap string (option nat)))
    (rule d p t : string) :
  mapsOK (length objects) (Some m) m2 ->
  appendConfig objects (Some m) rule d p t = Some (objects', m') ->
  mapsOK (length objects') (Some m') m2
  /\ (forall name, name <> rule ->
                   derefMap objects' (Some m') !! name = derefMap objects (Some m) !! name)
  /\ (forall name, derefMap objects' m2 !! name = derefMap objects m2 !! name).
Proof.
  intros (Hwf & Hinj1 & Hinj2 & Hdis).
  destruct (appendConfig_Some objects m rule d p t) as (ptr & base & -> & Hbase).
  intros [= <- <-].
  set (objects' := if anySet d p t then alter (appendEntry d p t) ptr base else base).
  assert (Hlen : (length objects <= length objects')%nat /\ (ptr < length objects')%nat).
  { assert (length objects' = length base) as ->
      by (unfold objects'; destruct (anySet d p t); [apply length_alter | reflexivity]).
    destruct Hbase as [[Hptr ->]|(_ & -> & ->)].
    - split; [lia|]. apply (Hwf rule). now left.
    - rewrite length_app. simpl. lia. }
  assert (Hkeep : forall a, (a < length objects)%nat -> a <> ptr ->
                            objects' !! a = objects !! a).
  { intros a Ha Hne.
    assert (objects' !! a = base !! a) as ->
      by (unfold objects'; destruct (anySet d p t);
          [apply list_lookup_alter_ne; congruence | reflexivity]).
    destruct Hbase as [[_ ->]|(_ & _ & ->)]; [reflexivity | now apply lookup_app_l]. }
  assert (Hother1 : forall name a, name <> rule -> readPtr (Some m) name = Some a -> a <> ptr).
  { intros name a Hne Ha ->. destruct Hbase as [[Hptr _]|(_ & -> & _)].
    - apply Hne. exact (Hinj1 _ _ _ Ha Hptr).
    - assert ((length objects < length objects)%nat); [|lia]. apply (Hwf name). now left. }
  assert (Hother2 : forall name a, readPtr m2 name = Some a -> a <> ptr).
  { intros name a Ha ->. destruct Hbase as [[Hptr _]|(_ & -> & _)].
    - exact (Hdis _ _ _ Hptr Ha).
    - assert ((length objects < length objects)%nat); [|lia]. apply (Hwf name). now right. }
  split; [|split].
  - repeat split.
    + intros r q [Hq|Hq].
      * rewrite readPtr_insert in Hq. destruct (decide (rule = r)).
        -- injection Hq as <-. lia.
        -- assert ((q < length objects)%nat) by (apply (Hwf r); now left). lia.
      * assert ((q < length objects)%nat) by (apply (Hwf r); now right). lia.
    + intros r1 r2 q. rewrite !readPtr_insert.
      destruct (decide (rule = r1)) as [<-|Hn1], (decide (rule = r2)) as [<-|Hn2];
        intros H1 H2.
      * reflexivity.
      * injection H1 as <-. exfalso. now apply (Hother1 r2 ptr).
      * injection H2 as <-. exfalso. now apply (Hother1 r1 ptr).
      * exact (Hinj1 _ _ _ H1 H2).
    + exact Hinj2.
    + intros r1 r2 q. rewrite readPtr_insert. destruct (decide (rule = r1)) as [<-|Hn1].
      * intros [= <-] Hq. now apply (Hother2 r2 ptr).
      * apply Hdis.
  - intros name Hne. rewrite !derefMap_lookup, lookup_insert_ne by congruence.
    rewrite <- !derefMap_lookup. apply deref_readPtr.
    intros a Ha. apply Hkeep; [apply (Hwf name); now left | now apply (Hother1 name)].
  - intros name. destruct m2 as [m2|]; [|reflexivity]. apply deref_readPtr.
    intros a Ha. apply Hkeep; [apply (Hwf name); now right | now apply (Hother2 name)].
Qed.

Lemma newStore_OK : storeOK newStore.
Proof.
  unfold storeOK, mapsOK, newStore, readPtr. simpl.
  repeat split; try discriminate; intros; rewrite ?lookup_empty in *;
    try discriminate; destruct_or?; discriminate.
Qed.

(** X6: on a configuration as the helpers build it from
    [NewConfigurationFile] (maps allocated, no entries object under two
    keys), [appendConfigExclude] and [appendConfigWarning] for one rule
    return such a configuration again and do not change what [Apply]
    does to the contexts of any other rule. *)
Theorem X6_append_leaves_other_rules
    (c : ConfigStore) (rule d p t : string) (res : ResultContext) (rule' : Rule)
    (Hok : storeOK c)
    (Hrule : RC_Rule res = Some rule') (Hne : Name rule' <> rule) :
  (exists c',
      appendConfigExclude rule d p t (Some c) = Some c'
      /\ storeOK c'
      /\ Apply (storedConfig c') res = Apply (storedConfig c) res)
  /\ (exists c',
        appendConfigWarning rule d p t (Some c) = Some c'
        /\ storeOK c'
        /\ Apply (storedConfig c') res = Apply (storedConfig c) res).
Proof.
  destruct Hok as (He & Hw & Hmaps).
  destruct c as [objects [mE|] [mW|]]; simpl in *; try contradiction. split.
  - destruct (appendConfig objects (Some mE) rule d p t) as [[objects' m']|] eqn:Happ;
      [|destruct (appendConfig_Some objects mE rule d p t) as (? & ? & ? & _); congruence].
    destruct (appendConfig_frame _ _ _ _ _ _ _ _ _ Hmaps Happ) as (Hok' & Hkeep1 & Hkeep2).
    eexists. split; [reflexivity|].
    split; [repeat split; simpl; try discriminate; apply Hok'|].
    rewrite !(Apply_char _ res rule' Hrule).
    cbn [storedConfig CF_Exclusions CF_Warnings CS_objects CS_Exclusions CS_Warnings].
    rewrite (passMatched_lookup_ext _ _ _ res (Hkeep1 (Name rule') Hne)).
    rewrite (passMatched_lookup_ext _ _ _ res (Hkeep2 (Name rule'))). reflexivity.
  - apply mapsOK_sym in Hmaps.
    destruct (appendConfig objects (Some mW) rule d p t) as [[objects' m']|] eqn:Happ;
      [|destruct (appendConfig_Some objects mW rule d p t) as (? & ? & ? & _); congruence].
    destruct (appendConfig_frame _ _ _ _ _ _ _ _ _ Hmaps Happ) as (Hok' & Hkeep1 & Hkeep2).
    eexists. split; [reflexivity|].
    split; [repeat split; simpl; try discriminate; apply mapsOK_sym in Hok'; apply Hok'|].
    rewrite !(Apply_char _ res rule' Hrule).
    cbn [storedConfig CF_Exclusions CF_Warnings CS_objects CS_Exclusions CS_Warnings].
    rewrite (passMatched_lookup_ext _ _ _ res (Hkeep1 (Name rule') Hne)).
    rewrite (passMatched_lookup_ext _ _ _ res (Hkeep2 (Name rule'))). reflexivity.
Qed.

Lemma X6_append_leaves_other_rules_witness :
  exists c',
    appendConfigExclude "rule1" "dash1" EmptyString EmptyString (Some newStore) = Some c'
    /\ storeOK c'
    /\ Apply (storedConfig c') (ctxOf "rule2" "dash1" Error)
       = Apply (storedConfig newStore) (ctxOf "rule2" "dash1" Error).
Proof.
  apply (X6_append_leaves_other_rules newStore "rule1" "dash1" EmptyString EmptyString
           (ctxOf "rule2" "dash1" Error) (testRule "rule2")).
  - exact newStore_OK.
  - reflexivity.
  - discriminate.
Defined.

(** Without the condition of X6: when two keys hold the same entries
    object, an entry appended for one rule narrows the other. *)
Example shared_object_reaches_other_rule :
  Apply (storedConfig sharedStore) (ctxOf "rule2" "dash2" Error)
  = Some (excluded (ctxOf "rule2" "dash2" Error))
  /\ (storedConfigOf
        (appendConfigExclude "rule1" "dash1" EmptyString EmptyString (Some sharedStore))
      ≫= fun cf => Apply cf (ctxOf "rule2" "dash2" Error))
     = Some (ctxOf "rule2" "dash2" Error).
Proof. split; vm_compute; reflexivity. Qed.

Lemma passMatched_clearReasons (m : gmap string (option ConfigurationRuleEntries))
    (name : string) (res : ResultContext) :
  passMatched (clearPtrReasons <$> m) name res = passMatched m name res.
Proof.
  unfold passMatched. rewrite lookup_fmap.
  destruct (m !! name) as [[e|]|]; simpl; [|reflexivity..].
  rewrite !loop_matched, length_fmap. simpl.
  destruct (length (CRE_Entries e) =? 0)%nat; [reflexivity|].
  induction (CRE_Entries e) as [|ce l IH]; [reflexivity|].
  rewrite fmap_cons. cbn [existsb]. rewrite IH. reflexivity.
Qed.

(** X7: the reason strings of a configuration are not evaluated:
    [Apply] gives the same result when every reason is blanked. *)
Theorem X7_reasons_are_not_evaluated (cf : ConfigurationFile) (res : ResultContext) :
  Apply (clearReasons cf) res = Apply cf res.
Proof.
  destruct (RC_Rule res) as [rule|] eqn:Hrule.
  - rewrite !(Apply_char _ res rule Hrule). unfold clearReasons. simpl.
    now rewrite !passMatched_clearReasons.
  - unfold Apply. now rewrite Hrule.
Qed.

(** * Further properties of the result set *)

Lemma mapM_applyPtr_nil (l : list ResultContext) :
  mapM (applyPtr None) l = None <-> l <> [].
Proof.
  destruct l as [|r l]; simpl; [split; [discriminate | contradiction]|].
  split; [discriminate | reflexivity].
Qed.

(** X8: on a result set without configuration [AddResult] never panics
    and stores the context as it is; [Configure] with a nil
    configuration returns on the empty result set and panics on every
    other one. *)
Theorem X8_unconfigured_result_set (rs : ResultSet) (r : ResultContext) :
  (RS_config rs = None ->
   AddResult r rs = Some (mkResultSet (RS_results rs ++ [r]) None))
  /\ (Configure None rs = None <-> RS_results rs <> [])
  /\ (RS_results rs = [] -> Configure None rs = Some emptyResultSet).
Proof.
  split; [|split].
  - intros Hc. unfold AddResult. now rewrite Hc.
  - unfold Configure. rewrite <- mapM_applyPtr_nil.
    destruct (mapM (applyPtr None) (RS_results rs)); split; congruence.
  - intros Hnil. unfold Configure. now rewrite Hnil.
Qed.

Lemma X8_unconfigured_result_set_witness :
  AddResult (ctxNoDash "rule1" Error) emptyResultSet
  = Some (mkResultSet [ctxNoDash "rule1" Error] None)
  /\ Configure None sampleResults = None
  /\ Configure None emptyResultSet = Some emptyResultSet.
Proof.
  split; [|split].
  - apply (X8_unconfigured_result_set emptyResultSet). reflexivity.
  - apply (X8_unconfigured_result_set sampleResults (ctxNoDash "rule1" Error)). discriminate.
  - apply (X8_unconfigured_result_set emptyResultSet (ctxNoDash "rule1" Error)). reflexivity.
Defined.

Lemma Configure_Some (cf : ConfigurationFile) (rs rs' : ResultSet) :
  Configure (Some cf) rs = Some rs' <->
  mapM (Apply cf) (RS_results rs) = Some (RS_results rs') /\ RS_config rs' = Some cf.
Proof.
  unfold Configure. simpl.
  change (applyPtr (Some cf)) with (Apply cf).
  destruct (mapM (Apply cf) (RS_results rs)) as [l|]; split.
  - intros [= <-]. auto.
  - intros [[= ->] Hc]. destruct rs' as [l' c']. simpl in *. now subst.
  - discriminate.
  - intros [? _]. discriminate.
Qed.

(** X9: a configured [AddResult] appends exactly the rewritten context:
    the contexts stored before stay in place and unchanged, the
    configuration stays attached, and the call panics exactly when the
    new context has no rule. *)
Theorem X9_AddResult_appends
    (cf : ConfigurationFile) (rs : ResultSet) (r : ResultContext)
    (Hc : RS_config rs = Some cf) :
  (AddResult r rs = None <-> RC_Rule r = None)
  /\ forall rs',
      AddResult r rs = Some rs' ->
      exists r', Apply cf r = Some r'
                 /\ RS_results rs' = RS_results rs ++ [r']
                 /\ RS_config rs' = Some cf
                 /\ length (RS_results rs') = S (length (RS_results rs)).
Proof.
  unfold AddResult. rewrite Hc. split.
  - rewrite <- (Apply_None cf). destruct (Apply cf r); split; congruence.
  - intros rs'. destruct (Apply cf r) as [r'|]; [|discriminate].
    intros [= <-]. exists r'. simpl. rewrite length_app. simpl.
    repeat split; lia.
Qed.

Lemma X9_AddResult_appends_witness :
  exists r',
    Apply cfBoth ctxDash1 = Some r'
    /\ RS_results (mkResultSet [ctxDash1; setResult ctxDash1 (mkResult Warning "foo (Excluded)")]
                               (Some cfBoth))
       = [ctxDash1] ++ [r'].
Proof.
  destruct (X9_AddResult_appends cfBoth (mkResultSet [ctxDash1] (Some cfBoth)) ctxDash1 eq_refl)
    as [_ H].
  destruct (H (mkResultSet [ctxDash1; setResult ctxDash1 (mkResult Warning "foo (Excluded)")]
                           (Some cfBoth)))
    as (r' & Hr & Hl & _); [vm_compute; reflexivity|].
  exists r'. split; assumption.
Defined.

Lemma MaximumSeverity_severities (sevVal : Severity -> Z) (rs rs' : ResultSet) :
  sevOf <$> RS_results rs = sevOf <$> RS_results rs' ->
  MaximumSeverity sevVal rs = MaximumSeverity sevVal rs'.
Proof.
  unfold MaximumSeverity. generalize Success.
  generalize (RS_results rs') as l'. induction (RS_results rs) as [|x l IH];
    intros [|x' l'] a; simpl; try discriminate; [reflexivity|].
  intros [= Hx Hl]. unfold maxStep at 2 4. rewrite Hx. now apply IH.
Qed.

Lemma Configure_twice (cf : ConfigurationFile) (l l1 : list ResultContext) :
  mapM (Apply cf) l = Some l1 ->
  exists l2, mapM (Apply cf) l1 = Some l2
             /\ sevOf <$> l2 = sevOf <$> l1
             /\ (l2 = l1 <-> Forall (fun r => excludedBy cf r = false) l).
Proof.
  intros H. apply mapM_Some in H.
  induction H as [|r r1 l l1 Hr _ (l2 & Hl2 & Hsev & Heq)].
  - exists []. repeat split; auto.
  - destruct (Apply_twice cf r r1 Hr) as (r2 & Hr2 & Hs & _ & Hsame).
    exists (r2 :: l2). split; [|split].
    + simpl. rewrite Hr2. simpl. now rewrite Hl2.
    + rewrite !fmap_cons. now rewrite Hs, Hsev.
    + rewrite Forall_cons, <- Hsame, <- Heq. split.
      * intros [= -> ->]. auto.
      * intros [-> ->]. reflexivity.
Qed.

(** X10: configuring a result set again with the same configuration
    keeps every severity, and so the maximum severity; it leaves the
    result set as it is exactly when the exclusion pass matched none of
    the contexts (each match appends " (Excluded)" once more). *)
Theorem X10_Configure_twice
    (cf : ConfigurationFile) (rs rs1 : ResultSet)
    (H1 : Configure (Some cf) rs = Some rs1) :
  exists rs2,
    Configure (Some cf) rs1 = Some rs2
    /\ sevOf <$> RS_results rs2 = sevOf <$> RS_results rs1
    /\ (forall sevVal, MaximumSeverity sevVal rs2 = MaximumSeverity sevVal rs1)
    /\ (rs2 = rs1 <-> Forall (fun r => excludedBy cf r = false) (RS_results rs)).
Proof.
  apply Configure_Some in H1 as [Hl Hc].
  destruct (Configure_twice cf _ _ Hl) as (l2 & Hl2 & Hsev & Heq).
  exists (mkResultSet l2 (Some cf)). split; [|split; [|split]].
  - apply Configure_Some. auto.
  - exact Hsev.
  - intros sevVal. now apply MaximumSeverity_severities.
  - rewrite <- Heq. destruct rs1 as [l1 c1]. simpl in *. subst c1.
    split; [intros [= ->] | intros ->]; reflexivity.
Qed.

Lemma X10_Configure_twice_witness :
  exists rs2,
    Configure (Some cfBoth) (mkResultSet [setResult ctxDash1 (mkResult Warning "foo (Excluded)")]
                                         (Some cfBoth)) = Some rs2
    /\ sevOf <$> RS_results rs2 = [Warning]
    /\ rs2 <> mkResultSet [setResult ctxDash1 (mkResult Warning "foo (Excluded)")] (Some cfBoth).
Proof.
  destruct (X10_Configure_twice cfBoth (mkResultSet [ctxDash1] None)
              (mkResultSet [setResult ctxDash1 (mkResult Warning "foo (Excluded)")]
                           (Some cfBoth)))
    as (rs2 & H2 & Hsev & _ & Heq); [vm_compute; reflexivity|].
  exists rs2. split; [exact H2|]. split; [exact Hsev|].
  intros E. apply Heq in E. apply Forall_cons in E as [E _]. revert E.
  vm_compute. discriminate.
Defined.

Lemma mapM_app_Some {X Y : Type} (f : X -> option Y) (l1 l2 : list X) :
  mapM f (l1 ++ l2)
  = match mapM f l1, mapM f l2 with
    | Some k1, Some k2 => Some (k1 ++ k2)
    | _, _ => None
    end.
Proof.
  induction l1 as [|x l1 IH]; simpl.
  - now destruct (mapM f l2).
  - destruct (f x); simpl; [|reflexivity]. rewrite IH.
    destruct (mapM f l1), (mapM f l2); reflexivity.
Qed.

(** X11: the order of configuring and adding does not matter on any
    result set that has no configuration yet, empty or not: adding a
    sequence of contexts and then configuring gives the same result set
    as configuring and then adding them. *)
Theorem X11_configure_commutes_on_unconfigured
    (cf : ConfigurationFile) (rs0 : ResultSet) (l : list ResultContext)
    (Hc : RS_config rs0 = None) :
  match AddResults l rs0 with
  | Some rs => Configure (Some cf) rs
  | None => None
  end
  = match Configure (Some cf) rs0 with
    | Some rs => AddResults l rs
    | None => None
    end.
Proof.
  destruct rs0 as [l0 c0]. simpl in Hc. subst c0.
  rewrite AddResults_unconfigured. unfold Configure. simpl.
  change (applyPtr (Some cf)) with (Apply cf). rewrite mapM_app_Some.
  destruct (mapM (Apply cf) l0) as [k0|]; [|reflexivity].
  rewrite AddResults_configured. now destruct (mapM (Apply cf) l).
Qed.

Lemma X11_configure_commutes_on_unconfigured_witness :
  match AddResults [ctxOf "rule1" "dash2" Error] (mkResultSet [ctxDash1] None) with
  | Some rs => Configure (Some cfBoth) rs
  | None => None
  end
  = Some (mkResultSet [setResult ctxDash1 (mkResult Warning "foo (Excluded)");
                       ctxOf "rule1" "dash2" Error] (Some cfBoth)).
Proof.
  rewrite (X11_configure_commutes_on_unconfigured cfBoth (mkResultSet [ctxDash1] None)
             [ctxOf "rule1" "dash2" Error] eq_refl).
  vm_compute. reflexivity.
Defined.

(** ** Maximum severity, continued *)

Lemma max_loop_threshold (sevVal : Severity -> Z) (l : list ResultContext)
    (a : Severity) (v : Z) :
  v <= sevVal (fold_left (maxStep sevVal) l a) <->
  v <= sevVal a \/ exists r, r ∈ l /\ v <= sevVal (sevOf r).
Proof.
  destruct (max_loop_bounds sevVal l a) as [Ha Hl]. split.
  - intros Hv. destruct (max_loop_attained sevVal l a) as [E|(r & Hr & E)].
    + left. now rewrite E in Hv.
    + right. exists r. split; [exact Hr|]. now rewrite E.
  - intros [Hv|(r & Hr & Hv)]; [lia|]. specialize (Hl r Hr). lia.
Qed.

Lemma MaximumSeverity_threshold (sevVal : Severity -> Z) (rs : ResultSet) (v : Z) :
  v <= sevVal (MaximumSeverity sevVal rs) <->
  v <= sevVal Success \/ exists r, r ∈ RS_results rs /\ v <= sevVal (sevOf r).
Proof. apply max_loop_threshold. Qed.

(** X12: a severity level above [Success] is reached by the maximum
    severity exactly when some result reaches it; with the level of
    [Error], this is the test that decides whether a run failed. *)
Theorem X12_MaximumSeverity_reaches_level
    (sevVal : Severity -> Z) (rs : ResultSet) (v : Z)
    (Hv : sevVal Success < v) :
  v <= sevVal (MaximumSeverity sevVal rs) <->
  exists r, r ∈ RS_results rs /\ v <= sevVal (sevOf r).
Proof.
  rewrite MaximumSeverity_threshold. split; [|auto].
  intros [H|H]; [lia | exact H].
Qed.

Lemma X12_MaximumSeverity_reaches_level_witness :
  iotaVal Error <= iotaVal (MaximumSeverity iotaVal (resultsOf severityResults)).
Proof.
  apply (X12_MaximumSeverity_reaches_level iotaVal (resultsOf severityResults) (iotaVal Error)).
  - simpl. lia.
  - exists (mkResultContext (mkResult Error EmptyString) None None None None).
    split; [|simpl; lia].
    unfold resultsOf, severityResults. simpl.
    do 2 apply list_elem_of_further. apply list_elem_of_here.
Defined.

(** X13: the value of the maximum severity of a concatenation is the
    greater of the values of the parts; it does not depend on the order
    of the results; and [AddResult] never lowers it when the result set
    has no configuration. *)
Theorem X13_MaximumSeverity_composes (sevVal : Severity -> Z) :
  (forall l1 l2,
      sevVal (MaximumSeverity sevVal (resultsOf (l1 ++ l2)))
      = Z.max (sevVal (MaximumSeverity sevVal (resultsOf l1)))
              (sevVal (MaximumSeverity sevVal (resultsOf l2))))
  /\ (forall rs rs',
        RS_results rs ≡ₚ RS_results rs' ->
        sevVal (MaximumSeverity sevVal rs) = sevVal (MaximumSeverity sevVal rs'))
  /\ (forall r rs rs',
        RS_config rs = None -> AddResult r rs = Some rs' ->
        sevVal (MaximumSeverity sevVal rs) <= sevVal (MaximumSeverity sevVal rs')).
Proof.
  assert (Hle : forall rs rs',
             (forall r, r ∈ RS_results rs -> r ∈ RS_results rs') ->
             sevVal (MaximumSeverity sevVal rs) <= sevVal (MaximumSeverity sevVal rs')).
  { intros rs rs' Hsub. apply MaximumSeverity_threshold.
    assert (H : sevVal (MaximumSeverity sevVal rs) <= sevVal (MaximumSeverity sevVal rs))
      by lia.
    apply MaximumSeverity_threshold in H as [H|(r & Hr & H)]; [now left|].
    right. exists r. auto. }
  split; [|split].
  - intros l1 l2.
    assert (H1 : sevVal (MaximumSeverity sevVal (resultsOf l1))
                 <= sevVal (MaximumSeverity sevVal (resultsOf (l1 ++ l2))))
      by (apply Hle; simpl; intros r Hr; apply elem_of_app; auto).
    assert (H2 : sevVal (MaximumSeverity sevVal (resultsOf l2))
                 <= sevVal (MaximumSeverity sevVal (resultsOf (l1 ++ l2))))
      by (apply Hle; simpl; intros r Hr; apply elem_of_app; auto).
    assert (H3 : sevVal (MaximumSeverity sevVal (resultsOf (l1 ++ l2)))
                 <= sevVal (MaximumSeverity sevVal (resultsOf (l1 ++ l2)))) by lia.
    apply MaximumSeverity_threshold in H3 as [H3|(r & Hr & H3)].
    + pose proof (proj2 (MaximumSeverity_threshold sevVal (resultsOf l1) _) (or_introl H3)).
      lia.
    + simpl in Hr. apply elem_of_app in Hr as [Hr|Hr].
      * pose proof (proj2 (MaximumSeverity_threshold sevVal (resultsOf l1) _)
                      (or_intror (ex_intro _ r (conj Hr H3)))). lia.
      * pose proof (proj2 (MaximumSeverity_threshold sevVal (resultsOf l2) _)
                      (or_intror (ex_intro _ r (conj Hr H3)))). lia.
  - intros rs rs' Hperm.
    assert (sevVal (MaximumSeverity sevVal rs) <= sevVal (MaximumSeverity sevVal rs'))
      by (apply Hle; intros r; now rewrite Hperm).
    assert (sevVal (MaximumSeverity sevVal rs') <= sevVal (MaximumSeverity sevVal rs))
      by (apply Hle; intros r; now rewrite Hperm).
    lia.
  - intros r rs rs' Hc. unfold AddResult. rewrite Hc. intros [= <-].
    apply Hle. simpl. intros x Hx. apply elem_of_app. auto.
Qed.

Lemma X13_MaximumSeverity_composes_witness :
  iotaVal (MaximumSeverity iotaVal (resultsOf severityResults))
  = iotaVal (MaximumSeverity iotaVal (resultsOf (reverse severityResults)))
  /\ iotaVal (MaximumSeverity iotaVal emptyResultSet)
     <= iotaVal (MaximumSeverity iotaVal (resultsOf [ctxDash1])).
Proof.
  destruct (X13_MaximumSeverity_composes iotaVal) as (_ & Hperm & Hadd).
  split.
  - apply Hperm. simpl. symmetry. apply reverse_Permutation.
  - apply (Hadd ctxDash1 emptyResultSet (resultsOf [ctxDash1])); reflexivity.
Defined.

(** ** Grouping and reporting, continued *)

Lemma ByRule_group (rs : ResultSet) (m : gmap string (list ResultContext))
    (name : string) (g : list ResultContext) :
  ByRule rs = Some m -> m !! name = Some g ->
  g ≡ₚ group name (RS_results rs) /\ g <> [].
Proof.
  intros Hm Hg. destruct (ByRule_lookup rs m name Hm) as [Hlookup _].
  rewrite Hg in Hlookup.
  destruct (group name (RS_results rs)) as [|x l] eqn:E; [discriminate|].
  symmetry in Hlookup. apply SliceStable_spec in Hlookup as (Hperm & _).
  split; [exact Hperm|]. intros ->. apply Permutation_nil_l in Hperm. discriminate.
Qed.

(** X14: the map [ByRule] returns is a partition of the results: no
    group is empty, every context of a group has the rule the group is
    keyed by, every result is in a group, and every context of a group
    is a result. *)
Theorem X14_ByRule_partition
    (rs : ResultSet) (m : gmap string (list ResultContext))
    (Hm : ByRule rs = Some m) :
  (forall name g, m !! name = Some g ->
                  g <> [] /\ Forall (fun r => ruleName r = Some name) g
                  /\ length g = length (group name (RS_results rs)))
  /\ (forall r, r ∈ RS_results rs <-> exists name g, m !! name = Some g /\ r ∈ g).
Proof.
  split.
  - intros name g Hg. destruct (ByRule_group rs m name g Hm Hg) as [Hperm Hne].
    split; [exact Hne|]. split; [|now rewrite Hperm].
    apply Forall_forall. intros r Hr. rewrite Hperm in Hr.
    now apply group_elem in Hr as [Hr _].
  - intros r. split.
    + intros Hr. destruct (RC_Rule r) as [rule|] eqn:Hrule.
      * assert (Hin : r ∈ group (Name rule) (RS_results rs)).
        { apply group_elem. split; [|exact Hr]. unfold ruleName. now rewrite Hrule. }
        destruct (ByRule_lookup rs m (Name rule) Hm) as [_ [g Hg]].
        { intros E. rewrite E in Hin. inversion Hin. }
        exists (Name rule), g. split; [exact Hg|].
        destruct (ByRule_group rs m _ g Hm Hg) as [Hperm _]. now rewrite Hperm.
      * exfalso. assert (Hnone : ByRule rs = None); [|congruence].
        apply ByRule_None. left. eauto.
    + intros (name & g & Hg & Hr).
      destruct (ByRule_group rs m name g Hm Hg) as [Hperm _].
      rewrite Hperm in Hr. now apply group_elem in Hr as [_ Hr].
Qed.

Lemma X14_ByRule_partition_witness :
  [ctxOf "rule1" "dashA" Warning; ctxOf "rule1" "dashB" Error] <> []
  /\ Forall (fun r => ruleName r = Some "rule1"%string)
            [ctxOf "rule1" "dashA" Warning; ctxOf "rule1" "dashB" Error]
  /\ length [ctxOf "rule1" "dashA" Warning; ctxOf "rule1" "dashB" Error]
     = length (group "rule1" (RS_results sampleResults)).
Proof.
  assert (Hm : ByRule sampleResults = Some sampleGroups) by (vm_compute; reflexivity).
  destruct (X14_ByRule_partition sampleResults sampleGroups Hm) as [H _].
  apply (H "rule1"%string). vm_compute. reflexivity.
Defined.

Lemma reportGroup_is_Some (name : string) (g : list ResultContext) :
  g <> [] -> Forall (fun r => ruleName r = Some name) g -> is_Some (reportGroup g).
Proof.
  intros Hne Hall. destruct g as [|r0 g]; [contradiction|].
  apply Forall_cons in Hall as [Hr0 _]. unfold reportGroup, ruleName in *.
  destruct (RC_Rule r0); [eauto | discriminate].
Qed.

(** X15: [ReportByRule] adds no panic to those of [ByRule]: once the
    groups are built, the first context of every group exists and has a
    rule to describe. *)
Theorem X15_ReportByRule_panics_only_with_ByRule (rs : ResultSet) :
  ReportByRule rs = None <-> ByRule rs = None.
Proof.
  unfold ReportByRule. destruct (ByRule rs) as [m|] eqn:Hm; [|split; reflexivity].
  assert (Hall : is_Some (mapM reportGroup (map_to_list m).*2)).
  { apply mapM_is_Some, Forall_forall. intros g Hg.
    apply list_elem_of_fmap in Hg as ([name g'] & -> & Hin).
    apply elem_of_map_to_list in Hin. simpl.
    destruct (ByRule_group rs m name g' Hm Hin) as [Hperm Hne].
    apply (reportGroup_is_Some name); [exact Hne|].
    apply Forall_forall. intros r Hr. rewrite Hperm in Hr.
    now apply group_elem in Hr as [Hr _]. }
  destruct Hall as [outs ->]. split; discriminate.
Qed.

Example ReportByRule_one_group :
  ReportByRule (resultsOf [ctxOf "rule1" "dashB" Error; ctxOf "rule1" "dashA" Quiet])
  = Some ("Test Rule" +:+ newline +:+ "[❌] foo" +:+ newline).
Proof. vm_compute. reflexivity. Qed.

Lemma length_append (s t : string) :
  String.length (s +:+ t) = (String.length s + String.length t)%nat.
Proof.
  induction s as [|c s IH]; [reflexivity|].
  change (S (String.length (s +:+ t)) = S (String.length s + String.length t)).
  now rewrite IH.
Qed.

Lemma append_inj_l (s1 s2 t : string) : s1 +:+ t = s2 +:+ t -> s1 = s2.
Proof.
  revert s2. induction s1 as [|c1 s1 IH]; intros [|c2 s2] H.
  - reflexivity.
  - apply (f_equal String.length) in H. rewrite !length_append in H. simpl in H. lia.
  - apply (f_equal String.length) in H. rewrite !length_append in H. simpl in H. lia.
  - change (String c1 (s1 +:+ t) = String c2 (s2 +:+ t)) in H.
    injection H as -> H. f_equal. now apply IH.
Qed.

(** X16: [TtyPrint] writes nothing exactly for the severity [Quiet];
    for every other severity it writes one line that ends with the
    message and a line feed, and the line determines the severity and
    the message. *)
Theorem X16_TtyPrint_line (r : ResultContext) :
  (TtyPrint r = EmptyString <-> sevOf r = Quiet)
  /\ (sevOf r <> Quiet ->
      exists sym, TtyPrint r = "[" +:+ sym +:+ "] " +:+ msgOf r +:+ newline)
  /\ (forall r', sevOf r <> Quiet -> TtyPrint r = TtyPrint r' -> RC_Result r = RC_Result r').
Proof.
  destruct r as [[sev msg] rule d p t]. unfold TtyPrint, sevOf, msgOf. simpl.
  split; [|split].
  - destruct sev; split; intros H; try reflexivity; discriminate.
  - intros Hq. destruct sev; try contradiction; eexists; reflexivity.
  - intros [[sev' msg'] rule' d' p' t'] Hq. simpl.
    destruct sev, sev'; try contradiction; intros H; try discriminate H;
      do 3 apply (inj (String.append _)) in H; apply append_inj_l in H; now subst.
Qed.

Lemma X16_TtyPrint_line_witness :
  exists sym, TtyPrint ctxDash1 = "[" +:+ sym +:+ "] foo" +:+ newline.
Proof.
  destruct (X16_TtyPrint_line ctxDash1) as (_ & H & _).
  destruct H as [sym Hsym]; [discriminate|].
  exists sym. exact Hsym.
Defined.

(** *** Grouping a configured result set *)

Lemma Apply_keeps_scope (cf : ConfigurationFile) (r r' : ResultContext) :
  Apply cf r = Some r' ->
  RC_Rule r' = RC_Rule r /\ RC_Dashboard r' = RC_Dashboard r.
Proof.
  intros H. destruct (RC_Rule r) as [rule|] eqn:Hrule.
  - rewrite (Apply_char cf r rule Hrule) in H. injection H as <-. simpl. auto.
  - apply (Apply_None cf) in Hrule. congruence.
Qed.

Lemma Apply_keeps_keys (cf : ConfigurationFile) (r r' : ResultContext) :
  Apply cf r = Some r' -> ruleName r' = ruleName r /\ dashTitle r' = dashTitle r.
Proof.
  intros [Hr Hd]%Apply_keeps_scope. unfold ruleName, dashTitle. now rewrite Hr, Hd.
Qed.

Lemma sameScope_group (name : string) (l l' : list ResultContext) :
  Forall2 sameScope l l' -> Forall2 sameScope (group name l) (group name l').
Proof.
  induction 1 as [|r r' l l' [Hr Hd] _ IH]; [constructor|].
  rewrite !group_cons. unfold ruleName. rewrite Hr.
  destruct (decide (Name <$> RC_Rule r' = Some name)); simpl; [constructor|]; try assumption.
  now split.
Qed.

(** Whether [ByRule] panics depends on the rules and dashboards only. *)
Lemma sameScope_ByRule_None (rs rs' : ResultSet) :
  Forall2 sameScope (RS_results rs) (RS_results rs') ->
  ByRule rs = None -> ByRule rs' = None.
Proof.
  intros Hl. rewrite !ByRule_None.
  intros [(r & Hr & Hnil)|(name & Hlen & r & Hr & Hnil)].
  - left. apply list_elem_of_lookup in Hr as [i Hi].
    destruct (Forall2_lookup_l _ _ _ _ _ Hl Hi) as (r' & Hi' & [Hr' _]).
    exists r'. split; [apply list_elem_of_lookup; eauto | congruence].
  - right. exists name. pose proof (sameScope_group name _ _ Hl) as Hg.
    split; [now rewrite <- (Forall2_length _ _ _ Hg)|].
    apply list_elem_of_lookup in Hr as [i Hi].
    destruct (Forall2_lookup_l _ _ _ _ _ Hg Hi) as (r' & Hi' & [_ Hd']).
    exists r'. split; [apply list_elem_of_lookup; eauto | congruence].
Qed.

Section Rewritten.
Variable cf : ConfigurationFile.

Lemma rewritten_mapM (l l' : list ResultContext) :
  rewritten cf l l' <-> mapM (Apply cf) l = Some l'.
Proof. unfold rewritten. now rewrite mapM_Some. Qed.

Lemma rewritten_functional (l a b : list ResultContext) :
  rewritten cf l a -> rewritten cf l b -> a = b.
Proof. rewrite !rewritten_mapM. congruence. Qed.

Lemma rewritten_sameScope (l l' : list ResultContext) :
  rewritten cf l l' -> Forall2 sameScope l l' /\ Forall2 sameScope l' l.
Proof.
  intros H. split; [|apply Forall2_flip]; eapply Forall2_impl; try exact H;
    intros r r' [Hr Hd]%Apply_keeps_scope; split; congruence.
Qed.

Lemma rewritten_group (name : string) (l l' : list ResultContext) :
  rewritten cf l l' -> rewritten cf (group name l) (group name l').
Proof.
  induction 1 as [|r r' l l' Hr _ IH]; [constructor|].
  rewrite !group_cons. destruct (Apply_keeps_keys cf r r' Hr) as [-> _].
  destruct (decide (ruleName r = Some name)); simpl; [constructor|]; assumption.
Qed.

Lemma rewritten_withTitle (k : option string) (l l' : list ResultContext) :
  rewritten cf l l' -> rewritten cf (withTitle k l) (withTitle k l').
Proof.
  induction 1 as [|r r' l l' Hr _ IH]; [constructor|].
  rewrite !withTitle_cons. destruct (Apply_keeps_keys cf r r' Hr) as [_ ->].
  destruct (decide (dashTitle r = k)); simpl; [constructor|]; assumption.
Qed.

Lemma rewritten_Sorted (g h : list ResultContext) :
  rewritten cf g h -> Sorted titleLe g -> Sorted titleLe h.
Proof.
  induction 1 as [|r r' g h Hr Hgh IH]; [constructor|].
  intros Hs. inversion Hs as [|? ? Hs' Hhd]; subst. constructor; [auto|].
  destruct Hgh as [|x x' g h Hx _]; [constructor|].
  inversion Hhd; subst. constructor. unfold titleLe in *.
  destruct (Apply_keeps_keys cf r r' Hr) as [_ ->].
  destruct (Apply_keeps_keys cf x x' Hx) as [_ ->]. assumption.
Qed.

Lemma rewritten_total (l l' g : list ResultContext) :
  rewritten cf l l' -> (forall r, r ∈ g -> r ∈ l) -> exists h, rewritten cf g h.
Proof.
  intros Hl Hsub.
  assert (Hsome : is_Some (mapM (Apply cf) g)).
  { apply mapM_is_Some, Forall_forall. intros r Hr. simpl.
    apply Hsub, list_elem_of_lookup in Hr as [i Hi].
    destruct (Forall2_lookup_l _ _ _ _ _ Hl Hi) as (r' & _ & Hr'). eauto. }
  destruct Hsome as [h Hh]. exists h. now apply rewritten_mapM.
Qed.

Lemma rewritten_ByRule_lookup (rs rs' : ResultSet)
    (m m' : gmap string (list ResultContext)) (name : string) :
  rewritten cf (RS_results rs) (RS_results rs') ->
  ByRule rs = Some m -> ByRule rs' = Some m' ->
  m' !! name = m !! name ≫= mapM (Apply cf).
Proof.
  intros Hl Hm Hm'.
  pose proof (rewritten_group name _ _ Hl) as Hg.
  destruct (ByRule_lookup rs m name Hm) as [Hlook Hsome].
  destruct (ByRule_lookup rs' m' name Hm') as [Hlook' Hsome'].
  destruct (group name (RS_results rs)) as [|x l] eqn:E.
  - apply Forall2_nil_inv_l in Hg. rewrite Hg in Hlook'.
    rewrite Hlook, Hlook'. reflexivity.
  - destruct Hsome as [g Hgm]; [discriminate|].
    destruct Hsome' as [g' Hgm'].
    { intros E'. rewrite E' in Hg. inversion Hg. }
    rewrite Hgm, Hgm'. simpl.
    rewrite Hgm in Hlook. symmetry in Hlook.
    apply SliceStable_spec in Hlook as (Hperm & Hsorted & Hstable).
    assert (Hlook2 : SliceStable lessByTitle (group name (RS_results rs')) = Some g').
    { rewrite Hgm' in Hlook'. destruct (group name (RS_results rs')); [discriminate|].
      now symmetry. }
    apply SliceStable_spec in Hlook2 as (_ & Hsorted' & Hstable').
    destruct (rewritten_total _ _ g Hl) as [h Hh].
    { intros r Hr. rewrite Hperm, <- E in Hr. now apply group_elem in Hr as [_ Hr]. }
    rewrite (proj1 (rewritten_mapM g h) Hh). f_equal.
    apply sorted_stable_unique; [exact Hsorted' | now apply (rewritten_Sorted g) |].
    intros k. rewrite Hstable'.
    apply (rewritten_functional (withTitle k g)).
    + rewrite Hstable. now apply rewritten_withTitle.
    + now apply rewritten_withTitle.
Qed.
End Rewritten.

(** X17: grouping commutes with configuring: after a successful
    [Configure], [ByRule] panics exactly when it did before, and each
    group of the configured result set is the group of the original one
    under the same rule name, rewritten by [Apply] in the same order. *)
Theorem X17_ByRule_after_Configure
    (cf : ConfigurationFile) (rs rs' : ResultSet)
    (Hc : Configure (Some cf) rs = Some rs') :
  (ByRule rs' = None <-> ByRule rs = None)
  /\ forall m m' name,
      ByRule rs = Some m -> ByRule rs' = Some m' ->
      m' !! name = m !! name ≫= mapM (Apply cf).
Proof.
  apply Configure_Some in Hc as [Hl _]. apply rewritten_mapM in Hl. split.
  - destruct (rewritten_sameScope cf _ _ Hl) as [H1 H2].
    split; now apply sameScope_ByRule_None.
  - intros m m' name. now apply rewritten_ByRule_lookup.
Qed.

Lemma X17_ByRule_after_Configure_witness :
  sampleConfiguredGroups !! "rule1"%string
  = sampleGroups !! "rule1"%string ≫= mapM (Apply cfDashA).
Proof.
  assert (Hc : Configure (Some cfDashA) sampleResults = Some sampleConfigured)
    by (vm_compute; reflexivity).
  destruct (X17_ByRule_after_Configure cfDashA sampleResults sampleConfigured Hc) as [_ H].
  apply H; vm_compute; reflexivity.
Defined.

(** * Further properties of matching *)

(** X18: an entry that matches a context also matches the same context
    at every wider scope: without its target, without its panel and
    target, and without any scope reference. An entry written for one
    target therefore also covers the panel-scoped and dashboard-scoped
    results of the same rule on that panel and dashboard. *)
Theorem X18_IsMatch_wider_scope
    (ce : ConfigurationEntry) (r : ResultContext)
    (Hm : IsMatch ce r = true) :
  IsMatch ce (withScope r (RC_Dashboard r) (RC_Panel r) None) = true
  /\ IsMatch ce (withScope r (RC_Dashboard r) None None) = true
  /\ IsMatch ce (withScope r None None None) = true.
Proof.
  apply IsMatch_true_iff in Hm as (Hd & Hp & Ht).
  repeat split; apply IsMatch_true_iff; simpl;
    repeat split; intros; try discriminate; eauto.
Qed.

Lemma X18_IsMatch_wider_scope_witness :
  IsMatch entryTarget0 ctxTarget0 = true
  /\ IsMatch entryTarget0 (withScope ctxTarget0 (RC_Dashboard ctxTarget0) None None) = true.
Proof.
  split; [reflexivity|].
  apply (X18_IsMatch_wider_scope entryTarget0 ctxTarget0). reflexivity.
Defined.

Lemma existsb_Permutation {X : Type} (f : X -> bool) (l l' : list X) :
  l ≡ₚ l' -> existsb f l = existsb f l'.
Proof.
  intros Hperm. apply eq_true_iff_eq. rewrite !existsb_exists.
  setoid_rewrite <- list_elem_of_In. now setoid_rewrite Hperm.
Qed.

(** X19: the order of the entries of a rule does not matter: two entry
    lists that are permutations of each other match the same contexts in
    a pass. *)
Theorem X19_entry_order_is_irrelevant
    (m m' : gmap string (option ConfigurationRuleEntries)) (name : string)
    (e e' : ConfigurationRuleEntries) (res : ResultContext)
    (Hm : m !! name = Some (Some e)) (Hm' : m' !! name = Some (Some e'))
    (Hperm : CRE_Entries e ≡ₚ CRE_Entries e') :
  passMatched m name res = passMatched m' name res.
Proof.
  unfold passMatched. rewrite Hm, Hm', !loop_matched. simpl.
  rewrite (Permutation_length Hperm).
  now rewrite (existsb_Permutation _ _ _ Hperm).
Qed.

Lemma X19_entry_order_is_irrelevant_witness :
  passMatched {[ "rule1"%string :=
                   Some (mkConfigurationRuleEntries EmptyString [entryTarget0; entryDash1]) ]}
              "rule1" ctxDash1
  = passMatched {[ "rule1"%string :=
                     Some (mkConfigurationRuleEntries EmptyString [entryDash1; entryTarget0]) ]}
                "rule1" ctxDash1.
Proof.
  apply (X19_entry_order_is_irrelevant _ _ "rule1"
           (mkConfigurationRuleEntries EmptyString [entryTarget0; entryDash1])
           (mkConfigurationRuleEntries EmptyString [entryDash1; entryTarget0])).
  - vm_compute. reflexivity.
  - vm_compute. reflexivity.
  - simpl. apply perm_swap.
Defined.

Lemma max_loop_constant (sevVal : Severity -> Z) (s : Severity) (l : list ResultContext) :
  Forall (fun r => sevOf r = s) l -> fold_left (maxStep sevVal) l s = s.
Proof.
  induction 1 as [|r l Hr _ IH]; [reflexivity|]. simpl.
  unfold maxStep at 2. rewrite Hr, Z.ltb_irrefl. exact IH.
Qed.

(** X20: when the exclusion pass matches every context of a non-empty
    result set and the warning pass matches none, the configured result
    set has maximum severity [Exclude], whatever the severities were. *)
Theorem X20_all_excluded_maximum
    (sevVal : Severity -> Z) (cf : ConfigurationFile) (rs rs' : ResultSet)
    (Horder : sevVal Success < sevVal Exclude)
    (Hc : Configure (Some cf) rs = Some rs')
    (Hne : RS_results rs <> [])
    (Hall : Forall (fun r => excludedBy cf r = true /\ warnedBy cf r = false) (RS_results rs)) :
  Forall (fun r => sevOf r = Exclude) (RS_results rs')
  /\ MaximumSeverity sevVal rs' = Exclude.
Proof.
  apply Configure_Some in Hc as [Hl _]. apply mapM_Some in Hl.
  assert (Hex : Forall (fun r => sevOf r = Exclude) (RS_results rs')).
  { clear Hne. induction Hl as [|r r' l l' Hr _ IH]; [constructor|].
    apply Forall_cons in Hall as [[He Hw] Hall]. constructor; [|now apply IH].
    unfold excludedBy, warnedBy in He, Hw.
    destruct (RC_Rule r) as [rule|] eqn:Hrule; [|discriminate].
    rewrite (Apply_char cf r rule Hrule) in Hr. injection Hr as <-.
    unfold sevOf. simpl. now rewrite He, Hw. }
  split; [exact Hex|].
  unfold MaximumSeverity.
  destruct Hl as [|r r' l l' _ _]; [contradiction|].
  apply Forall_cons in Hex as [Hr' Hex]. simpl.
  unfold maxStep at 2. rewrite Hr'.
  destruct (Z.ltb_spec (sevVal Success) (sevVal Exclude)); [|lia].
  now apply max_loop_constant.
Qed.

Lemma X20_all_excluded_maximum_witness :
  MaximumSeverity iotaVal
    (mkResultSet [setResult ctxDash1 (mkResult Exclude "foo (Excluded)")]
                 (Some cfRule1Wide))
  = Exclude.
Proof.
  apply (X20_all_excluded_maximum iotaVal cfRule1Wide (resultsOf [ctxDash1])).
  - simpl. lia.
  - vm_compute. reflexivity.
  - discriminate.
  - repeat constructor; vm_compute; reflexivity.
Defined.
